(** * ImageGrid: placing 2D-projected images on a regular grid

    A shallow embedding of [orangecontrib/prototypes/image_grid.py].

    Conventions of the model.
    - Python [int]s are [Z]; list positions are [nat].
    - NumPy [float64] values are exact rationals ([Q]) or [NaN]: rounding
      error of the floating-point unit is left out of the main model, and
      equalities between coordinates are stated with [==] on [Q].  Where a
      result hinges on rounding - the coordinates [process] reports - the
      same operations are written in IEEE 754 binary64 in [Binary64].
    - Exceptions are values of [exn]; a computation that may raise returns
      [result A].  [process] threads the object [self] explicitly and
      returns the object as it is when the call ends or raises.
    - The two imported numerical routines the module only calls,
      [scipy.stats.kurtosis] and [lap.lapjv], are parameters. *)

From Stdlib Require SpecFloat.
From Stdlib Require Import ZArith QArith Qround Qabs List Lia Bool Permutation.
From Stdlib Require Import Qfield.
Import ListNotations.

Open Scope Z_scope.

(** ** Exceptions and results *)

Inductive exn : Set :=
| AssertionError   (* a failed [assert] *)
| ValueError       (* [np.linspace] with a negative sample count *)
| IndexError       (* an index outside a sequence *)
| SolverError.     (* [lapjv] refused its input *)

Definition result (A : Type) : Type := (exn + A)%type.

Definition ok {A} (a : A) : result A := inr a.
Definition raise {A} (e : exn) : result A := inl e.

Definition rbind {A B} (r : result A) (k : A -> result B) : result B :=
  match r with
  | inl e => inl e
  | inr a => k a
  end.

(** A list comprehension [[f a for a in l]] whose body may raise: the
    first exception, left to right, aborts the comprehension. *)
Fixpoint mapM {A B} (f : A -> result B) (l : list A) : result (list B) :=
  match l with
  | [] => ok []
  | a :: l' =>
      rbind (f a) (fun b => rbind (mapM f l') (fun bs => ok (b :: bs)))
  end.

(** Python indexing [l[i]] of a sequence with an [int]: a negative index
    counts from the end, anything outside [-len, len) raises. *)
Definition py_index {A} (l : list A) (i : Z) : result A :=
  let n := Z.of_nat (length l) in
  let k := if i <? 0 then i + n else i in
  if (0 <=? k) && (k <? n)
  then match nth_error l (Z.to_nat k) with
       | Some a => ok a
       | None => raise IndexError
       end
  else raise IndexError.

(** ** NumPy scalars and the array primitives the module uses *)

Inductive float64 : Set :=
| NaN
| Finite (q : Q).

(** A 2D point: a pair of coordinates. *)
Abbreviation point := (Q * Q)%type (only parsing).

Definition pt_eq (p q : point) : Prop := fst p == fst q /\ snd p == snd q.

Module Np.

(** [a * k] for an integer constant [k]. *)
Definition mul_int (a : float64) (k : Z) : float64 :=
  match a with
  | NaN => NaN
  | Finite q => Finite (q * inject_Z k)
  end.

(** [np.ceil]: the result is still a float. *)
Definition ceil (a : float64) : float64 :=
  match a with
  | NaN => NaN
  | Finite q => Finite (inject_Z (Qceiling q))
  end.

(** [np.abs]. *)
Definition abs (a : float64) : float64 :=
  match a with
  | NaN => NaN
  | Finite q => Finite (Qabs q)
  end.

Definition int32_min : Z := - 2 ^ 31.
Definition int32_max : Z := 2 ^ 31 - 1.

(** [np.int32(a)]: the C conversion truncates toward zero.  [NaN] and
    values outside the 32-bit range have no defined conversion; x86-64
    yields the "integer indefinite" pattern, [-2^31], which is what is
    written here. *)
Definition int32 (a : float64) : Z :=
  match a with
  | NaN => int32_min
  | Finite q =>
      let t := if Qle_bool 0 q then Qfloor q else Qceiling q in
      if (int32_min <=? t) && (t <=? int32_max) then t else int32_min
  end.

(** [int(np.ceil(np.sqrt(n)))] for [n = len(data)]: the least [s] with
    [s * s >= n]. *)
Definition ceil_sqrt (n : Z) : Z :=
  let s := Z.sqrt n in
  if s * s =? n then s else s + 1.

(** [np.linspace(0, 1, num, endpoint=False)]: sample [i] is
    [start + i * step] with [step = (stop - start) / num]; a negative
    [num] raises. *)
Definition linspace_0_1 (num : Z) : result (list Q) :=
  if num <? 0 then raise ValueError
  else
    let step := ((1 - 0) / inject_Z num)%Q in
    ok (map (fun i => (0 + inject_Z (Z.of_nat i) * step)%Q)
            (seq 0 (Z.to_nat num))).

(** [np.dstack(np.meshgrid(xs, ys)).reshape(-1, 2)]: [meshgrid] (with its
    default ['xy'] indexing) gives two [len(ys) x len(xs)] arrays
    [X[r][c] = xs[c]] and [Y[r][c] = ys[r]]; stacking them in depth and
    flattening all but the last axis lists [(xs[c], ys[r])] with [c]
    running fastest. *)
Definition meshgrid_pairs (xs ys : list Q) : list point :=
  flat_map (fun y => map (fun x => (x, y)) xs) ys.

End Np.

(** [scipy.spatial.distance.cdist(XA, XB, "sqeuclidean")] yields a
    [len(XA) x len(XB)] array; the shape is kept beside the entries, as an
    array with no rows still has a column count. *)
Record ndarray2 : Set := mk_ndarray2 {
  shape0 : nat;
  shape1 : nat;
  entries : list (list Q)
}.

Definition sqeuclidean (a b : point) : Q :=
  ((fst a - fst b) * (fst a - fst b) + (snd a - snd b) * (snd a - snd b))%Q.

Definition cdist_sqeuclidean (xa xb : list point) : ndarray2 :=
  {| shape0 := length xa;
     shape1 := length xb;
     entries := map (fun a => map (fun b => sqeuclidean a b) xb) xa |}.

(** Entry [(i, j)] of an array; [0] outside it (never read outside in what
    follows). *)
Definition entry (m : ndarray2) (i j : nat) : Q :=
  nth j (nth i (entries m) []) 0%Q.

(** ** The moment routine, for concrete inputs *)

Definition qsum (l : list Q) : Q := fold_right Qplus 0%Q l.

Definition qmean (l : list Q) : Q :=
  (qsum l / inject_Z (Z.of_nat (length l)))%Q.

Definition central_moment (k : positive) (l : list Q) : Q :=
  let mu := qmean l in
  qmean (map (fun v => Qpower_positive (v - mu) k) l).

(** Modelled from the spec: [scipy.stats.kurtosis] is imported by the
    module, not defined in it.  The spec calls for "the excess kurtosis of
    the point distribution along each axis independently": the fourth
    central moment over the squared second central moment, minus 3 (the
    population form, SciPy's default).  It is undefined ([NaN]) for no
    points and for an axis of zero variance.  The methods below take the
    routine as a parameter; this definition instantiates it where a
    concrete data set is evaluated. *)
Definition excess_kurtosis (l : list Q) : float64 :=
  match l with
  | [] => NaN
  | _ =>
      let m2 := central_moment 2 l in
      if Qeq_bool m2 0 then NaN
      else Finite (Qred (central_moment 4 l / (m2 * m2) - 3))
  end.

Definition kurtosis_by_axis (data : list point) : float64 * float64 :=
  (excess_kurtosis (map fst data), excess_kurtosis (map snd data)).

(** ** The class [ImageGrid] *)

Section ImageGrid.

(** A row of the input table (an [Orange.data.Instance]); opaque. *)
Variable DataInstance : Type.

(** [scipy.stats.kurtosis(data)]: one value per column of [data]. *)
Variable kurtosis : list point -> float64 * float64.

(** [lap.lapjv(cost_matrix, extend_cost=True)]: the cost and the two index
    arrays (rows to columns, columns to rows), or a refusal. *)
Variable lapjv : ndarray2 -> option (Q * list Z * list Z).

(** The attributes set by [__init__].  [norm_data] is what the projector
    and the normalizer made of [data], one point per row. *)
Record ImageGrid : Type := mk_ImageGrid {
  size_x : Z;
  size_y : Z;
  cost : Q;
  grid_indices : list Z;
  assignments : list point;
  image_list : list (option DataInstance);
  data : list DataInstance;
  norm_data : list point
}.

Definition set_size (self : ImageGrid) (sx sy : Z) : ImageGrid :=
  {| size_x := sx; size_y := sy;
     cost := cost self; grid_indices := grid_indices self;
     assignments := assignments self; image_list := image_list self;
     data := data self; norm_data := norm_data self |}.

Definition set_solution (self : ImageGrid)
           (c : Q) (gi : list Z) (a : list point) : ImageGrid :=
  {| size_x := size_x self; size_y := size_y self;
     cost := c; grid_indices := gi; assignments := a;
     image_list := image_list self;
     data := data self; norm_data := norm_data self |}.

Definition set_assignments (self : ImageGrid) (a : list point) : ImageGrid :=
  {| size_x := size_x self; size_y := size_y self;
     cost := cost self; grid_indices := grid_indices self;
     assignments := a; image_list := image_list self;
     data := data self; norm_data := norm_data self |}.

Definition set_image_list (self : ImageGrid)
           (il : list (option DataInstance)) : ImageGrid :=
  {| size_x := size_x self; size_y := size_y self;
     cost := cost self; grid_indices := grid_indices self;
     assignments := assignments self; image_list := il;
     data := data self; norm_data := norm_data self |}.

(** *** Methods that read the object: state and exceptions *)

Definition Method (A : Type) : Type := ImageGrid -> result A * ImageGrid.

Definition ret {A} (a : A) : Method A := fun self => (ok a, self).

Definition bind {A B} (m : Method A) (k : A -> Method B) : Method B :=
  fun self =>
    match m self with
    | (inl e, self') => (inl e, self')
    | (inr a, self') => k a self'
    end.

Definition throw {A} (e : exn) : Method A := fun self => (raise e, self).
Definition get : Method ImageGrid := fun self => (ok self, self).
Definition put (self' : ImageGrid) : Method unit := fun _ => (ok tt, self').
Definition lift {A} (r : result A) : Method A := fun self => (r, self).

Definition py_assert (b : bool) : Method unit :=
  if b then ret tt else throw AssertionError.

Notation "x <- m ;; k" := (bind m (fun x => k))
  (at level 61, m at next level, right associativity).
Notation "' p <- m ;; k" := (bind m (fun x => let p := x in k))
  (at level 61, p pattern, m at next level, right associativity).
Notation "m ;;; k" := (bind m (fun _ => k))
  (at level 61, right associativity).

(** *** [_get_grid_size] *)

Definition axis_bias (k : float64) : Z :=
  Np.int32 (Np.abs (Np.ceil (Np.mul_int k 2))).

Definition _get_grid_size (data : list point) (use_default_square : bool)
  : Z * Z :=
  let sqr_size := Np.ceil_sqrt (Z.of_nat (length data)) in
  let size_x := sqr_size in
  let size_y := sqr_size in
  if negb use_default_square then
    let kurt := kurtosis data in
    let kurt_x := axis_bias (fst kurt) in
    let kurt_y := axis_bias (snd kurt) in
    (size_x + kurt_x, size_y + kurt_y)
  else (size_x, size_y).

(** *** [_get_assignments] *)

Definition make_grid (sx sy : Z) : result (list point) :=
  rbind (Np.linspace_0_1 sx) (fun xs =>
  rbind (Np.linspace_0_1 sy) (fun ys =>
  ok (Np.meshgrid_pairs xs ys))).

Definition _get_assignments (self : ImageGrid) (data : list point)
  : result (Q * list Z * list point) :=
  rbind (make_grid (size_x self) (size_y self)) (fun grid =>
  let cost_matrix := cdist_sqeuclidean grid data in
  match lapjv cost_matrix with
  | None => raise SolverError
  | Some (c, x, y) =>
      rbind (mapM (py_index grid) y) (fun a => ok (c, x, a))
  end).

(** *** [_grid_indices_to_image_list] *)

Definition _grid_indices_to_image_list (self : ImageGrid)
           (images : list DataInstance) : result (list (option DataInstance)) :=
  mapM (fun i => if i =? -1 then ok None
                 else rbind (py_index images i) (fun v => ok (Some v)))
       (grid_indices self).

(** *** [process] *)

(** [self.assignments.T[k] *= s].  An [np.array] built from an empty list
    of rows has shape [(0,)], so [.T[k]] raises there; otherwise the array
    is [(N, 2)], its transpose has the two rows 0 and 1, and the selected
    coordinate of every point is scaled in place.  The product is exact
    here; what a [float64] product gives is in [Binary64.reported]. *)
Definition scale_column (k : nat) (s : Z) : Method unit :=
  self <- get ;;
  match assignments self, k with
  | [], _ => throw IndexError
  | a, 0%nat =>
      put (set_assignments self
             (map (fun p => ((fst p * inject_Z s)%Q, snd p)) a))
  | a, 1%nat =>
      put (set_assignments self
             (map (fun p => (fst p, (snd p * inject_Z s)%Q)) a))
  | _, _ => throw IndexError
  end.

(** Truth value of an [int]. *)
Definition truthy (n : Z) : bool := negb (n =? 0).

Definition process (size_x size_y : Z) : Method unit :=
  (* check if grid will fit all of the images *)
  (if truthy size_x && truthy size_y then
     self <- get ;;
     py_assert (Z.of_nat (length (data self)) <=? size_x * size_y) ;;;
     put (set_size self size_x size_y)
   (* calculate the necessary grid size *)
   else
     self <- get ;;
     let '(sx, sy) := _get_grid_size (norm_data self) false in
     put (set_size self sx sy)) ;;;
  (* calculate grid assignments and cost of the assignment *)
  self <- get ;;
  ' (c, gi, a) <- lift (_get_assignments self (norm_data self)) ;;
  put (set_solution self c gi a) ;;;
  (* multiply by cell size to get [0, n) indices for grid *)
  self <- get ;;
  scale_column 0 (ImageGrid.size_x self) ;;;
  self <- get ;;
  scale_column 1 (ImageGrid.size_y self) ;;;
  self <- get ;;
  il <- lift (_grid_indices_to_image_list self (data self)) ;;
  put (set_image_list self il).

End ImageGrid.

Arguments size_x {DataInstance}.
Arguments size_y {DataInstance}.
Arguments cost {DataInstance}.
Arguments grid_indices {DataInstance}.
Arguments assignments {DataInstance}.
Arguments image_list {DataInstance}.
Arguments data {DataInstance}.
Arguments norm_data {DataInstance}.
Arguments process {DataInstance}.
Arguments _get_assignments {DataInstance}.
Arguments _grid_indices_to_image_list {DataInstance}.
Arguments set_size {DataInstance}.
Arguments set_solution {DataInstance}.
Arguments set_assignments {DataInstance}.
Arguments set_image_list {DataInstance}.
Arguments ret {DataInstance A}.
Arguments bind {DataInstance A B}.
Arguments throw {DataInstance A}.
Arguments get {DataInstance}.
Arguments put {DataInstance}.
Arguments lift {DataInstance A}.
Arguments py_assert {DataInstance}.
Arguments scale_column {DataInstance}.

(** ** The sizing rule as the specification words it

    The bias of an axis read as "the ceiling of the absolute value of twice
    the kurtosis"; [axis_bias] is what the code computes. *)

Definition spec_bias (k : Q) : Z := Qceiling (Qabs k * inject_Z 2).

(** A kurtosis value whose bias the 32-bit conversion represents. *)
Definition representable (k : float64) : Prop :=
  match k with
  | NaN => False
  | Finite q => Z.abs (Qceiling (q * inject_Z 2)) <= Np.int32_max
  end.

(** Four equally spaced points on the diagonal of the unit square. *)
Definition diagonal4 : list point :=
  [(0, 0); (1 # 3, 1 # 3); (2 # 3, 2 # 3); (1, 1)]%Q.

(** A moment routine that reports [-3] on every axis: the value
    [m4 / m2^2 - 3] takes when the ratio of two vanishing moments is read
    as [0]. *)
Definition kurtosis_flat (_ : list point) : float64 * float64 :=
  (Finite (-3 # 1), Finite (-3 # 1)).

(** Five points: the corners of the unit square and its centre. *)
Definition scatter5 : list point :=
  [(0, 0); (1, 0); (0, 1); (1, 1); (1 # 2, 1 # 2)]%Q.

(** The sizing contract as the specification states it: enough cells, and
    at least one cell along each axis. *)
Definition grid_size_as_specified
           (kurtosis : list point -> float64 * float64)
           (data : list point) (use_default_square : bool) : Prop :=
  let '(sx, sy) := _get_grid_size kurtosis data use_default_square in
  Z.of_nat (length data) <= sx * sy /\ 1 <= sx /\ 1 <= sy.

(** The shape bias as the specification states it: [spec_bias] of each
    axis on top of the minimal square. *)
Definition bias_as_specified
           (kurtosis : list point -> float64 * float64)
           (data : list point) : Prop :=
  forall kx ky,
    kurtosis data = (Finite kx, Finite ky) ->
    let base := Np.ceil_sqrt (Z.of_nat (length data)) in
    _get_grid_size kurtosis data false
    = (base + spec_bias kx, base + spec_bias ky).

(** The fallback the specification asks for on fewer than two points: the
    minimal square, whatever the moment routine would say. *)
Definition fallback_as_specified
           (kurtosis : list point -> float64 * float64)
           (data : list point) : Prop :=
  let base := Np.ceil_sqrt (Z.of_nat (length data)) in
  _get_grid_size kurtosis data false = (base, base).

(** ** The solver's contract

    [lapjv] is imported; what the module relies on is written in
    [_get_assignments]: the call finds "the assignments with minimal cost",
    "returns the cost and mapping indices (first grid->embeddings, then
    embeddings->grid)", "works if we have less embeddings than there are
    grid cells", and "-1 is returned if there is no matching embedding".

    A matching lists, for each column (point) in order, the row (cell) it
    is placed in. *)

Definition valid_matching (nrows ncols : nat) (m : list nat) : Prop :=
  length m = ncols /\ NoDup m /\ Forall (fun i => (i < nrows)%nat) m.

Definition indexed {A} (l : list A) : list (nat * A) :=
  combine (seq 0 (length l)) l.

Definition matching_cost (cm : ndarray2) (m : list nat) : Q :=
  qsum (map (fun ji => entry cm (snd ji) (fst ji)) (indexed m)).

(** The two index arrays pair rows with columns: [x] has one entry per
    row, [y] one per column, an entry is -1 or an index, and the two arrays
    are inverse to each other where they are not -1. *)
Record lap_pairing (cm : ndarray2) (x y : list Z) : Prop := {
  lap_rows : length x = shape0 cm;
  lap_cols : length y = shape1 cm;
  lap_row_range : forall i v, nth_error x i = Some v -> -1 <= v;
  lap_col_range : forall j v, nth_error y j = Some v -> -1 <= v;
  lap_row_to_col :
    forall i j, nth_error x i = Some (Z.of_nat j) ->
                nth_error y j = Some (Z.of_nat i);
  lap_col_to_row :
    forall i j, nth_error y j = Some (Z.of_nat i) ->
                nth_error x i = Some (Z.of_nat j)
}.

(** With no more columns than rows every column is matched, the cost
    returned is the cost of the matching returned, and no matching is
    cheaper. *)
Record lap_optimal (cm : ndarray2) (opt : Q) (y : list Z) : Prop := {
  lap_all_matched : forall j v, nth_error y j = Some v -> 0 <= v;
  lap_cost : (opt == matching_cost cm (map Z.to_nat y))%Q;
  lap_minimal :
    forall m, valid_matching (shape0 cm) (shape1 cm) m ->
              (opt <= matching_cost cm m)%Q
}.

Definition solver_contract
           (lapjv : ndarray2 -> option (Q * list Z * list Z)) : Prop :=
  forall cm c x y,
    lapjv cm = Some (c, x, y) ->
    lap_pairing cm x y
    /\ ((shape1 cm <= shape0 cm)%nat -> lap_optimal cm c y).

(** "The algorithm works if we have less embeddings than there are grid
    cells": with at least one column and no more columns than rows the
    solver returns. *)
Definition solver_answers
           (lapjv : ndarray2 -> option (Q * list Z * list Z)) : Prop :=
  forall cm, (1 <= shape1 cm <= shape0 cm)%nat -> lapjv cm <> None.

(** An entry of an index array that is not the empty sentinel. *)
Definition is_index (v : Z) : bool := negb (v =? -1).

(** The part of the contract that says how long the second index array is:
    one entry per column. *)
Definition solver_shape (lapjv : ndarray2 -> option (Q * list Z * list Z))
  : Prop :=
  forall cm c x y, lapjv cm = Some (c, x, y) -> length y = shape1 cm.

(** The total squared distance of a placement of the points on a lattice. *)
Definition placement_cost (grid data : list point) (m : list nat) : Q :=
  qsum (map (fun ji => sqeuclidean (nth (snd ji) grid (0, 0)%Q)
                                   (nth (fst ji) data (0, 0)%Q))
            (indexed m)).

(** The total squared distance between the points and the lattice
    coordinates reported for them. *)
Definition assignment_cost (a data : list point) : Q :=
  qsum (map (fun gp => sqeuclidean (fst gp) (snd gp)) (combine a data)).

(** ** A reference solver, for concrete inputs *)

(** Every way to place [ncols] columns on distinct rows among [rows]. *)
Fixpoint injections (rows : list nat) (ncols : nat) : list (list nat) :=
  match ncols with
  | O => [[]]
  | S k =>
      flat_map (fun r => map (cons r) (injections (remove Nat.eq_dec r rows) k))
               rows
  end.

(** The cheaper of two matchings, the earlier one on a tie. *)
Definition cheaper (cm : ndarray2) (best : option (list nat)) (m : list nat)
  : option (list nat) :=
  match best with
  | None => Some m
  | Some b =>
      if Qle_bool (matching_cost cm b) (matching_cost cm m)
      then Some b else Some m
  end.

Definition best_matching (cm : ndarray2) : option (list nat) :=
  fold_left (cheaper cm) (injections (seq 0 (shape0 cm)) (shape1 cm)) None.

(** The column placed on row [i] by the matching [m], or -1. *)
Definition column_of (m : list nat) (i : nat) : Z :=
  match find (fun ji => Nat.eqb (snd ji) i) (indexed m) with
  | Some ji => Z.of_nat (fst ji)
  | None => -1
  end.

(** Modelled from the spec: [lap.lapjv] is imported by the module, not
    defined in it.  The spec asks for "a globally minimal total assigned
    cost", every point "matched to exactly one distinct cell", and cells
    with no matched point marked by the sentinel -1.  This is exhaustive
    search over every one-to-one placement of the columns on the rows: not
    the Jonker-Volgenant algorithm, but a solver that can be run where a
    concrete [lapjv] is needed.  It refuses a matrix with more columns than
    rows, and answers a matrix with no columns with cost 0 and every row
    unmatched. *)
Definition lapjv_exhaustive (cm : ndarray2) : option (Q * list Z * list Z) :=
  match best_matching cm with
  | None => None
  | Some m =>
      Some (Qred (matching_cost cm m),
            map (column_of m) (seq 0 (shape0 cm)),
            map Z.of_nat m)
  end.

(** ** Objects as [__init__] leaves them *)

Definition new_ImageGrid {DataInstance} (data : list DataInstance)
           (norm_data : list point) : ImageGrid DataInstance :=
  {| size_x := 0; size_y := 0; cost := 0%Q;
     grid_indices := []; assignments := []; image_list := [];
     data := data; norm_data := norm_data |}.

(** No rows at all. *)
Definition no_images : ImageGrid nat := new_ImageGrid [] [].

(** Two rows, projected to opposite corners of the unit square. *)
Definition two_images : ImageGrid nat :=
  new_ImageGrid [10%nat; 11%nat] [(0, 0); (1, 1)]%Q.

(** [two_images] with a 2 x 2 grid chosen, before the solver runs. *)
Definition two_images_sized : ImageGrid nat :=
  {| size_x := 2; size_y := 2; cost := 0%Q;
     grid_indices := []; assignments := []; image_list := [];
     data := [10%nat; 11%nat]; norm_data := [(0, 0); (1, 1)]%Q |}.

(** [two_images] after [process(2, 2)]: the first row in the lower-left
    cell, the second in the upper-right one. *)
Definition two_images_placed : ImageGrid nat :=
  {| size_x := 2; size_y := 2; cost := (1 # 2)%Q;
     grid_indices := [0; -1; -1; 1];
     assignments := [(0 # 2, 0 # 2); (2 # 2, 2 # 2)]%Q;
     image_list := [Some 10%nat; None; None; Some 11%nat];
     data := [10%nat; 11%nat]; norm_data := [(0, 0); (1, 1)]%Q |}.

(** ** The second half of [process]

    Everything [process] does once the grid size is stored, named so that
    the two ways of fixing the size can be compared. *)

Definition solve_and_materialize {DataInstance}
           (lapjv : ndarray2 -> option (Q * list Z * list Z))
  : Method DataInstance unit :=
  bind get (fun self =>
  bind (lift (_get_assignments lapjv self (norm_data self)))
       (fun r => let '(c, gi, a) := r in
  bind (put (set_solution self c gi a)) (fun _ =>
  bind get (fun self =>
  bind (scale_column 0 (size_x self)) (fun _ =>
  bind get (fun self =>
  bind (scale_column 1 (size_y self)) (fun _ =>
  bind get (fun self =>
  bind (lift (_grid_indices_to_image_list self (data self))) (fun il =>
  put (set_image_list self il)))))))))).

(** What the specification promises for an input of no points: success,
    zero cost, and a grid in which every cell is empty. *)
Definition empty_input_as_specified {DataInstance}
           (outcome : result unit * ImageGrid DataInstance) : Prop :=
  fst outcome = ok tt
  /\ (cost (snd outcome) == 0)%Q
  /\ Forall (fun slot => slot = None) (image_list (snd outcome)).

(** ** Reading the output list *)

(** A slot that holds the empty marker. *)
Definition is_empty_slot {A} (slot : option A) : bool :=
  match slot with
  | None => true
  | Some _ => false
  end.

(** The body of the comprehension in [_grid_indices_to_image_list]. *)
Definition slot_of {A} (images : list A) (i : Z) : result (option A) :=
  if i =? -1 then ok None
  else rbind (py_index images i) (fun v => ok (Some v)).

(** The coordinates reported for the points: the first column scaled by
    [size_x], then the second by [size_y]. *)
Definition scaled {DataInstance} (s : ImageGrid DataInstance)
           (a : list point) : list point :=
  map (fun p => (fst p, (snd p * inject_Z (size_y s))%Q))
      (map (fun p => ((fst p * inject_Z (size_x s))%Q, snd p)) a).

(** Three rows with the result fields of an earlier run still in place. *)
Definition stale_images : ImageGrid nat :=
  {| size_x := 7; size_y := 1; cost := (5 # 1)%Q;
     grid_indices := [2; 1; 0];
     assignments := [(3, 0); (4, 0); (5, 0)]%Q;
     image_list := [Some 12%nat; Some 11%nat; Some 10%nat];
     data := [10%nat; 11%nat]; norm_data := [(0, 0); (1, 1)]%Q |}.

(** An object with a single cell and two points, and the answer of a
    solver that has only one row to give: the first point takes the cell,
    the second stays unmatched. *)
Definition one_cell_two_points : ImageGrid nat :=
  {| size_x := 1; size_y := 1; cost := 0%Q;
     grid_indices := []; assignments := []; image_list := [];
     data := [10%nat; 11%nat]; norm_data := [(0, 0); (1, 1)]%Q |}.

Definition lapjv_one_row (_ : ndarray2) : option (Q * list Z * list Z) :=
  Some (0%Q, [0], [0; -1]).

(** Four rows projected to the corners of the unit square. *)
Definition unit_square_images : ImageGrid nat :=
  new_ImageGrid [10%nat; 11%nat; 12%nat; 13%nat]
                [(0, 0); (1, 0); (0, 1); (1, 1)]%Q.

(** Seven rows spread evenly along the first axis. *)
Definition seven_images : ImageGrid nat :=
  new_ImageGrid
    [10%nat; 11%nat; 12%nat; 13%nat; 14%nat; 15%nat; 16%nat]
    [(0, 0); (1 # 6, 0); (2 # 6, 0); (3 # 6, 0); (4 # 6, 0); (5 # 6, 0);
     (1, 0)]%Q.

(** ** The reported coordinates in IEEE 754 binary64

    The operations that produce the coordinates [process] reports -
    [np.linspace], the selection [grid[i]] and the two in-place
    multiplications - with every arithmetic step rounded as a [float64]
    rounds it (round to nearest, ties to even; 53 bits of precision). *)

Module Binary64.

Definition binary64 : Set := SpecFloat.spec_float.

Definition prec : Z := 53.
Definition emax : Z := 1024.

(** The [float64] of an [int]. *)
Definition of_int (z : Z) : binary64 :=
  SpecFloat.binary_normalize prec emax z 0 false.

Definition add : binary64 -> binary64 -> binary64 := SpecFloat.SFadd prec emax.
Definition sub : binary64 -> binary64 -> binary64 := SpecFloat.SFsub prec emax.
Definition mul : binary64 -> binary64 -> binary64 := SpecFloat.SFmul prec emax.
Definition div : binary64 -> binary64 -> binary64 := SpecFloat.SFdiv prec emax.

(** [np.linspace(0, 1, num, endpoint=False)], as [Np.linspace_0_1]. *)
Definition linspace_0_1 (num : Z) : result (list binary64) :=
  if num <? 0 then raise ValueError
  else
    let step := div (sub (of_int 1) (of_int 0)) (of_int num) in
    ok (map (fun i => add (of_int 0) (mul (of_int (Z.of_nat i)) step))
            (seq 0 (Z.to_nat num))).

(** [np.dstack(np.meshgrid(xs, ys)).reshape(-1, 2)], as
    [Np.meshgrid_pairs]. *)
Definition meshgrid_pairs (xs ys : list binary64)
  : list (binary64 * binary64) :=
  flat_map (fun y => map (fun x => (x, y)) xs) ys.

Definition make_grid (sx sy : Z) : result (list (binary64 * binary64)) :=
  rbind (linspace_0_1 sx) (fun xs =>
  rbind (linspace_0_1 sy) (fun ys =>
  ok (meshgrid_pairs xs ys))).

(** [np.array([grid[i] for i in y])] followed by
    [.T[0] *= size_x] and [.T[1] *= size_y]: what [process] leaves in
    [assignments] when the solver's second index array is [y]. *)
Definition reported (sx sy : Z) (y : list Z)
  : result (list (binary64 * binary64)) :=
  rbind (make_grid sx sy) (fun grid =>
  rbind (mapM (py_index grid) y) (fun a =>
  match a with
  | [] => raise IndexError
  | _ =>
      ok (map (fun p => (fst p, mul (snd p) (of_int sy)))
              (map (fun p => (mul (fst p) (of_int sx), snd p)) a))
  end)).

(** [int(v)]: truncation toward zero; [None] where Python raises (a [NaN]
    or an infinity). *)
Definition to_int (v : binary64) : option Z :=
  match v with
  | SpecFloat.S754_zero _ => Some 0
  | SpecFloat.S754_finite s m e =>
      let a := if 0 <=? e then Z.pos m * 2 ^ e else Z.pos m / 2 ^ (- e) in
      Some (if s then - a else a)
  | _ => None
  end.

(** The row-major cell index a reader gets from a reported pair:
    [int(row) * size_x + int(col)]. *)
Definition cell_index (sx : Z) (p : binary64 * binary64) : option Z :=
  match to_int (fst p), to_int (snd p) with
  | Some col, Some row => Some (row * sx + col)
  | _, _ => None
  end.

End Binary64.

(* ================================================================== *)
(** * Properties *)
(* ================================================================== *)

(** ** Integer square root, rounded up *)

Lemma ceil_sqrt_nonneg n : 0 <= n -> 0 <= Np.ceil_sqrt n.
Proof.
  intros Hn. unfold Np.ceil_sqrt.
  pose proof (Z.sqrt_nonneg n).
  destruct (Z.sqrt n * Z.sqrt n =? n); lia.
Qed.

Lemma ceil_sqrt_covers n : 0 <= n -> n <= Np.ceil_sqrt n * Np.ceil_sqrt n.
Proof.
  intros Hn. unfold Np.ceil_sqrt.
  pose proof (Z.sqrt_spec n Hn) as [Hlo Hhi].
  destruct (Z.sqrt n * Z.sqrt n =? n) eqn:E.
  - apply Z.eqb_eq in E. lia.
  - unfold Z.succ in Hhi. lia.
Qed.

Lemma ceil_sqrt_least n t :
  0 <= n -> 0 <= t -> n <= t * t -> Np.ceil_sqrt n <= t.
Proof.
  intros Hn Ht Hcov. unfold Np.ceil_sqrt.
  pose proof (Z.sqrt_spec n Hn) as [Hlo Hhi].
  pose proof (Z.sqrt_nonneg n) as Hs.
  destruct (Z.sqrt n * Z.sqrt n =? n) eqn:E.
  - apply Z.eqb_eq in E.
    destruct (Z_le_gt_dec (Z.sqrt n) t) as [|Hgt]; [assumption|nia].
  - apply Z.eqb_neq in E.
    destruct (Z_le_gt_dec (Z.sqrt n + 1) t) as [|Hgt]; [assumption|nia].
Qed.

Lemma ceil_sqrt_pos n : 1 <= n -> 1 <= Np.ceil_sqrt n.
Proof.
  intros Hn.
  pose proof (ceil_sqrt_covers n ltac:(lia)).
  pose proof (ceil_sqrt_nonneg n ltac:(lia)).
  nia.
Qed.

(** ** The bias of one axis *)

Lemma axis_bias_finite q :
  Z.abs (Qceiling (q * inject_Z 2)) <= Np.int32_max ->
  axis_bias (Finite q) = Z.abs (Qceiling (q * inject_Z 2)).
Proof.
  intros Hr. unfold axis_bias. cbn [Np.mul_int Np.ceil Np.abs Np.int32].
  set (c := Qceiling (q * inject_Z 2)) in *.
  assert (Hle : Qle_bool 0 (Qabs (inject_Z c)) = true).
  { apply Qle_bool_iff. apply Qabs_nonneg. }
  rewrite Hle.
  assert (Hfl : Qfloor (Qabs (inject_Z c)) = Z.abs c).
  { unfold Qfloor, Qabs, inject_Z. apply Z.div_1_r. }
  rewrite Hfl.
  assert (Hlo : Np.int32_min <= Z.abs c).
  { unfold Np.int32_min. pose proof (Z.abs_nonneg c). lia. }
  apply Z.leb_le in Hlo, Hr. rewrite Hlo, Hr. reflexivity.
Qed.

Lemma axis_bias_representable k : representable k -> 0 <= axis_bias k.
Proof.
  destruct k as [|q]; intros Hr; [destruct Hr|].
  cbn [representable] in Hr.
  rewrite (axis_bias_finite q Hr). apply Z.abs_nonneg.
Qed.

(** For a nonnegative kurtosis both readings of the rule agree. *)
Lemma spec_bias_nonneg_kurtosis q :
  (0 <= q)%Q -> Z.abs (Qceiling (q * inject_Z 2)) = spec_bias q.
Proof.
  intros Hq. unfold spec_bias.
  rewrite (Qabs_pos q Hq).
  apply Z.abs_eq.
  assert (H0 : (0 <= q * inject_Z 2)%Q).
  { apply Qmult_le_0_compat; [assumption|]. discriminate. }
  apply Qceiling_resp_le in H0. exact H0.
Qed.

(** ** The grid sizer *)

Lemma grid_size_default_square kurtosis data :
  _get_grid_size kurtosis data true
  = (Np.ceil_sqrt (Z.of_nat (length data)),
     Np.ceil_sqrt (Z.of_nat (length data))).
Proof. reflexivity. Qed.

Lemma grid_size_adapted kurtosis data :
  _get_grid_size kurtosis data false
  = (Np.ceil_sqrt (Z.of_nat (length data)) + axis_bias (fst (kurtosis data)),
     Np.ceil_sqrt (Z.of_nat (length data)) + axis_bias (snd (kurtosis data))).
Proof. reflexivity. Qed.

(** C2, as stated, fails: for no points and [use_default_square] the sizer
    returns the 0 x 0 grid, so neither dimension is at least 1. *)
Lemma grid_size_empty_counterexample :
  _get_grid_size kurtosis_by_axis [] true = (0, 0)
  /\ ~ grid_size_as_specified kurtosis_by_axis [] true.
Proof.
  split; [reflexivity|].
  unfold grid_size_as_specified. cbn. lia.
Qed.

(** C2, amended: for every number M >= 0 of points (with shape adaptation,
    provided each axis has a kurtosis whose bias is representable), the
    sizer returns [size_x * size_y >= M] with both dimensions at least
    [ceil(sqrt(M))]; hence both are at least 1 as soon as M >= 1. *)
Theorem grid_size_sufficient kurtosis data use_default_square :
  (use_default_square = false ->
   representable (fst (kurtosis data))
   /\ representable (snd (kurtosis data))) ->
  let M := Z.of_nat (length data) in
  let sx := fst (_get_grid_size kurtosis data use_default_square) in
  let sy := snd (_get_grid_size kurtosis data use_default_square) in
  M <= sx * sy
  /\ Np.ceil_sqrt M <= sx /\ Np.ceil_sqrt M <= sy
  /\ (1 <= M -> 1 <= sx /\ 1 <= sy).
Proof.
  intros Hk M sx sy.
  assert (HM : 0 <= M) by apply Nat2Z.is_nonneg.
  pose proof (ceil_sqrt_covers M HM) as Hcov.
  pose proof (ceil_sqrt_nonneg M HM) as Hs.
  assert (Hx : Np.ceil_sqrt M <= sx /\ Np.ceil_sqrt M <= sy).
  { subst sx sy. destruct use_default_square.
    - rewrite grid_size_default_square. cbn [fst snd]. fold M. lia.
    - destruct (Hk eq_refl) as [Hkx Hky].
      apply axis_bias_representable in Hkx, Hky.
      rewrite grid_size_adapted. cbn [fst snd]. fold M. lia. }
  destruct Hx as [Hx Hy].
  repeat split; try assumption.
  - nia.
  - pose proof (ceil_sqrt_pos M H). lia.
  - pose proof (ceil_sqrt_pos M H). lia.
Qed.

Lemma grid_size_sufficient_witness :
  _get_grid_size kurtosis_by_axis scatter5 false = (6, 6)
  /\ 5 <= 6 * 6 /\ 3 <= 6 /\ 3 <= 6 /\ (1 <= 5 -> 1 <= 6 /\ 1 <= 6).
Proof.
  split; [vm_compute; reflexivity|].
  apply (grid_size_sufficient kurtosis_by_axis scatter5 false).
  intros _. split; vm_compute; discriminate.
Defined.

(** C4, as stated, fails: on four equally spaced points the kurtosis of
    each axis is -34/25; the code takes the ceiling first and the absolute
    value after, [|ceil(-2.72)| = 2], where the stated rule gives
    [ceil(|-2.72|) = 3]. *)
Lemma bias_ceiling_order_counterexample :
  (2 <= length diagonal4)%nat
  /\ kurtosis_by_axis diagonal4 = (Finite (-34 # 25), Finite (-34 # 25))
  /\ _get_grid_size kurtosis_by_axis diagonal4 false = (4, 4)
  /\ spec_bias (-34 # 25) = 3
  /\ ~ bias_as_specified kurtosis_by_axis diagonal4.
Proof.
  split; [cbn; lia|].
  split; [vm_compute; reflexivity|].
  split; [vm_compute; reflexivity|].
  split; [vm_compute; reflexivity|].
  intros H.
  specialize (H (-34 # 25)%Q (-34 # 25)%Q ltac:(vm_compute; reflexivity)).
  vm_compute in H. discriminate H.
Qed.

(** C4, amended: for M >= 2 points whose kurtosis is defined on both axes
    (no [NaN]) and has a bias the 32-bit conversion represents, the sizer
    with shape adaptation enabled adds to each axis, on top of
    [ceil(sqrt(M))], the bias [|ceil(kurtosis * 2)|] - the absolute value
    taken of the ceiling of twice the excess kurtosis of that axis.  This
    bias is never negative, and it equals [ceil(|kurtosis| * 2)] whenever
    the kurtosis is not negative. *)
Theorem grid_size_bias kurtosis data kx ky :
  (2 <= length data)%nat ->
  kurtosis data = (Finite kx, Finite ky) ->
  representable (Finite kx) ->
  representable (Finite ky) ->
  let base := Np.ceil_sqrt (Z.of_nat (length data)) in
  let bias_x := Z.abs (Qceiling (kx * inject_Z 2)) in
  let bias_y := Z.abs (Qceiling (ky * inject_Z 2)) in
  _get_grid_size kurtosis data false = (base + bias_x, base + bias_y)
  /\ 0 <= bias_x /\ 0 <= bias_y
  /\ ((0 <= kx)%Q -> bias_x = spec_bias kx)
  /\ ((0 <= ky)%Q -> bias_y = spec_bias ky).
Proof.
  intros _ Hk Hx Hy base bias_x bias_y.
  cbn [representable] in Hx, Hy.
  split.
  - rewrite grid_size_adapted, Hk. cbn [fst snd].
    rewrite (axis_bias_finite kx Hx), (axis_bias_finite ky Hy).
    reflexivity.
  - split; [apply Z.abs_nonneg|].
    split; [apply Z.abs_nonneg|].
    split; intros Hpos; apply spec_bias_nonneg_kurtosis; assumption.
Qed.

Lemma grid_size_bias_witness :
  _get_grid_size kurtosis_by_axis diagonal4 false = (2 + 2, 2 + 2)
  /\ 0 <= 2 /\ 0 <= 2
  /\ ((0 <= -34 # 25)%Q -> 2 = spec_bias (-34 # 25))
  /\ ((0 <= -34 # 25)%Q -> 2 = spec_bias (-34 # 25)).
Proof.
  apply (grid_size_bias kurtosis_by_axis diagonal4 (-34 # 25) (-34 # 25)).
  - cbn. lia.
  - vm_compute; reflexivity.
  - vm_compute; discriminate.
  - vm_compute; discriminate.
Defined.

(** C8, as stated, fails: the sizer has no guard on the number of points.
    With shape adaptation it calls the moment routine on a single point as
    on any input and adds whatever bias results: 6 per axis when the
    routine reports -3, and the converted [NaN] when it reports the
    kurtosis as undefined.  Neither result is the 1 x 1 grid. *)
Lemma degenerate_input_counterexample :
  (length [(0, 0)%Q] <= 1)%nat
  /\ _get_grid_size kurtosis_flat [(0, 0)%Q] false = (7, 7)
  /\ ~ fallback_as_specified kurtosis_flat [(0, 0)%Q]
  /\ kurtosis_by_axis [(0, 0)%Q] = (NaN, NaN)
  /\ ~ fallback_as_specified kurtosis_by_axis [(0, 0)%Q].
Proof.
  split; [cbn; lia|].
  split; [vm_compute; reflexivity|].
  split; [intros H; vm_compute in H; discriminate H|].
  split; [vm_compute; reflexivity|].
  intros H; vm_compute in H; discriminate H.
Qed.

(** C8, amended: for M <= 1 points the sizer returns the minimal square
    (M x M, that is 0 x 0 or 1 x 1) when [use_default_square] is set; with
    shape adaptation the moment routine is invoked as for any other input,
    its bias is added to both dimensions, and the result is the minimal
    square exactly when both biases are 0.  The sizer raises no error. *)
Theorem degenerate_input_sizing kurtosis data :
  (length data <= 1)%nat ->
  let M := Z.of_nat (length data) in
  let kurt := kurtosis data in
  _get_grid_size kurtosis data true = (M, M)
  /\ _get_grid_size kurtosis data false
     = (M + axis_bias (fst kurt), M + axis_bias (snd kurt))
  /\ (_get_grid_size kurtosis data false = (M, M)
      <-> axis_bias (fst kurt) = 0 /\ axis_bias (snd kurt) = 0).
Proof.
  intros Hlen M kurt.
  assert (Hbase : Np.ceil_sqrt M = M).
  { subst M. destruct data as [|p [|q data]]; cbn in Hlen |- *;
      [reflexivity | reflexivity | lia]. }
  rewrite grid_size_default_square, grid_size_adapted.
  fold M kurt. rewrite Hbase.
  split; [reflexivity|]. split; [reflexivity|].
  split.
  - intros H. injection H as Hx Hy. lia.
  - intros [Hx Hy]. rewrite Hx, Hy, Z.add_0_r. reflexivity.
Qed.

Lemma degenerate_input_sizing_witness :
  _get_grid_size kurtosis_flat [(0, 0)%Q] true = (1, 1)
  /\ _get_grid_size kurtosis_flat [(0, 0)%Q] false = (1 + 6, 1 + 6)
  /\ (_get_grid_size kurtosis_flat [(0, 0)%Q] false = (1, 1)
      <-> 6 = 0 /\ 6 = 0).
Proof.
  apply (degenerate_input_sizing kurtosis_flat [(0, 0)%Q]).
  cbn. lia.
Defined.

(** With [use_default_square] the kurtosis is not consulted and the result
    is the minimal square: both dimensions are [ceil(sqrt(M))], the least
    side whose square holds M points. *)
Lemma default_square_is_minimal kurtosis data :
  let M := Z.of_nat (length data) in
  let s := Np.ceil_sqrt M in
  _get_grid_size kurtosis data true = (s, s)
  /\ 0 <= s /\ M <= s * s
  /\ (s = 0 \/ (s - 1) * (s - 1) < M).
Proof.
  intros M s.
  assert (HM : 0 <= M) by apply Nat2Z.is_nonneg.
  split; [reflexivity|].
  split; [apply ceil_sqrt_nonneg; assumption|].
  split; [apply ceil_sqrt_covers; assumption|].
  pose proof (ceil_sqrt_nonneg M HM) as Hs. fold s in Hs.
  destruct (Z.eq_dec s 0) as [|Hnz]; [left; assumption|right].
  destruct (Z_lt_ge_dec ((s - 1) * (s - 1)) M) as [|Hge]; [assumption|].
  pose proof (ceil_sqrt_least M (s - 1) HM ltac:(lia) ltac:(lia)) as Hl.
  fold s in Hl. lia.
Qed.

(** ** [process]: fixing the grid size *)

Lemma truthy_false_iff sx sy :
  truthy sx && truthy sy = false <-> sx = 0 \/ sy = 0.
Proof.
  unfold truthy. rewrite andb_false_iff, !negb_false_iff, !Z.eqb_eq.
  reflexivity.
Qed.

Lemma process_explicit {D} kurtosis lapjv sx sy (self : ImageGrid D) :
  truthy sx && truthy sy = true ->
  process kurtosis lapjv sx sy self
  = if Z.of_nat (length (data self)) <=? sx * sy
    then solve_and_materialize lapjv (set_size self sx sy)
    else (raise AssertionError, self).
Proof.
  intros Ht. unfold process. rewrite Ht.
  cbv [bind get py_assert ret throw put ok].
  destruct (Z.of_nat (length (data self)) <=? sx * sy); reflexivity.
Qed.

Lemma process_automatic {D} kurtosis lapjv sx sy (self : ImageGrid D) :
  truthy sx && truthy sy = false ->
  process kurtosis lapjv sx sy self
  = solve_and_materialize lapjv
      (set_size self
         (fst (_get_grid_size kurtosis (norm_data self) false))
         (snd (_get_grid_size kurtosis (norm_data self) false))).
Proof.
  intros Ht. unfold process. rewrite Ht.
  cbv [bind get put ok].
  destruct (_get_grid_size kurtosis (norm_data self) false) as [ax ay].
  reflexivity.
Qed.

(** Which exceptions the steps of the second half can raise. *)

Lemma mapM_error {A B} (f : A -> result B) (E : exn) l e :
  (forall a e', f a = raise e' -> e' = E) ->
  mapM f l = raise e -> e = E.
Proof.
  intros Hf. induction l as [|a l IH]; cbn; [discriminate|].
  destruct (f a) as [e'|b] eqn:Efa; cbn.
  - intros H. injection H as <-. exact (Hf a e' Efa).
  - destruct (mapM f l) as [e'|bs]; cbn; [|discriminate].
    intros H. injection H as <-. apply IH. reflexivity.
Qed.

Lemma py_index_error {A} (l : list A) i e :
  py_index l i = raise e -> e = IndexError.
Proof.
  unfold py_index.
  destruct (_ && _); [destruct (nth_error _ _)|]; cbn; intros H;
    [discriminate | injection H as <-; reflexivity
     | injection H as <-; reflexivity].
Qed.

Lemma make_grid_error sx sy e : make_grid sx sy = raise e -> e = ValueError.
Proof.
  unfold make_grid, Np.linspace_0_1.
  destruct (sx <? 0); cbn; [intros H; injection H as <-; reflexivity|].
  destruct (sy <? 0); cbn; [intros H; injection H as <-; reflexivity|].
  discriminate.
Qed.

Lemma get_assignments_error {D} lapjv (self : ImageGrid D) pts e :
  _get_assignments lapjv self pts = raise e -> e <> AssertionError.
Proof.
  unfold _get_assignments.
  destruct (make_grid _ _) as [e'|grid] eqn:Eg; cbn.
  - intros H. injection H as <-. apply make_grid_error in Eg. subst e'.
    discriminate.
  - destruct (lapjv _) as [[[c x] y]|]; cbn.
    + destruct (mapM (py_index grid) y) as [e'|a] eqn:Ea; cbn; [|discriminate].
      intros H. injection H as <-.
      apply (mapM_error _ IndexError) in Ea;
        [subst e'; discriminate | apply py_index_error].
    + intros H. injection H as <-. discriminate.
Qed.

Lemma image_list_error {D} (self : ImageGrid D) images e :
  _grid_indices_to_image_list self images = raise e -> e <> AssertionError.
Proof.
  unfold _grid_indices_to_image_list. intros H.
  apply (mapM_error _ IndexError) in H; [subst e; discriminate|].
  intros i e'. destruct (i =? -1); cbn; [discriminate|].
  destruct (py_index images i) as [e''|v] eqn:Ei; cbn; [|discriminate].
  intros H'. injection H' as <-. exact (py_index_error _ _ _ Ei).
Qed.

Ltac frame_step :=
  cbn; repeat match goal with |- _ /\ _ => split end;
  try reflexivity; try discriminate; try (intros; reflexivity).

(** What the second half of [process] never does: it raises no
    [AssertionError], it leaves the size and the input alone, and it
    stores an image list only when it succeeds. *)
Lemma solve_and_materialize_frame {D} lapjv (self : ImageGrid D) :
  let out := solve_and_materialize lapjv self in
  fst out <> raise AssertionError
  /\ size_x (snd out) = size_x self
  /\ size_y (snd out) = size_y self
  /\ data (snd out) = data self
  /\ norm_data (snd out) = norm_data self
  /\ (forall e, fst out = raise e -> image_list (snd out) = image_list self).
Proof.
  cbv [solve_and_materialize bind get lift put ok].
  destruct (_get_assignments lapjv self (norm_data self))
    as [e|[[c gi] a]] eqn:Ea.
  { frame_step.
    intros H. apply (get_assignments_error _ _ _ _ Ea).
    unfold raise in H. congruence. }
  cbv [scale_column bind get put throw ok]. cbn [assignments set_solution].
  destruct a as [|p a]; [frame_step|].
  cbn [set_assignments assignments map].
  destruct (_grid_indices_to_image_list _ _) as [e|il] eqn:Ei.
  - frame_step.
    intros H. apply (image_list_error _ _ _ Ei).
    unfold raise in H. congruence.
  - frame_step.
Qed.

(** C3: when both sizes are given, positive, and [size_x * size_y] is less
    than the number of rows, [process] raises the assertion failure at
    once: the object it leaves behind is the object it was given, so
    [size_x], [size_y], [cost], [grid_indices], [assignments] and
    [image_list] keep their values. *)
Theorem insufficient_grid_is_refused {D}
        kurtosis lapjv (self : ImageGrid D) sx sy :
  0 < sx -> 0 < sy ->
  sx * sy < Z.of_nat (length (data self)) ->
  process kurtosis lapjv sx sy self = (raise AssertionError, self).
Proof.
  intros Hx Hy Hsmall.
  rewrite process_explicit.
  - apply Z.leb_gt in Hsmall. rewrite Hsmall. reflexivity.
  - unfold truthy.
    apply andb_true_iff. split; apply negb_true_iff, Z.eqb_neq; lia.
Qed.

Lemma insufficient_grid_is_refused_witness :
  process kurtosis_by_axis lapjv_exhaustive 1 1 two_images
  = (raise AssertionError, two_images).
Proof.
  apply (insufficient_grid_is_refused
           kurtosis_by_axis lapjv_exhaustive two_images 1 1).
  - lia.
  - lia.
  - cbn. lia.
Defined.

(** C10: when at least one of the two sizes is 0, both are ignored.  The
    call behaves as the call with no sizes at all: the size precondition is
    not checked (no assertion failure can result), and the grid size
    stored in the object is the one [_get_grid_size] computes from the
    data with shape adaptation - whatever the other size was. *)
Theorem zero_size_means_automatic {D}
        kurtosis lapjv (self : ImageGrid D) sx sy :
  sx = 0 \/ sy = 0 ->
  let out := process kurtosis lapjv sx sy self in
  out = process kurtosis lapjv 0 0 self
  /\ fst out <> raise AssertionError
  /\ (size_x (snd out), size_y (snd out))
     = _get_grid_size kurtosis (norm_data self) false.
Proof.
  intros Hz. cbv zeta.
  apply truthy_false_iff in Hz.
  rewrite (process_automatic kurtosis lapjv sx sy self Hz).
  rewrite (process_automatic kurtosis lapjv 0 0 self eq_refl).
  split; [reflexivity|].
  destruct (solve_and_materialize_frame lapjv
              (set_size self
                 (fst (_get_grid_size kurtosis (norm_data self) false))
                 (snd (_get_grid_size kurtosis (norm_data self) false))))
    as (Hne & Hsx & Hsy & _).
  split; [exact Hne|].
  rewrite Hsx, Hsy. cbn [size_x size_y set_size].
  destruct (_get_grid_size kurtosis (norm_data self) false); reflexivity.
Qed.

Lemma zero_size_means_automatic_witness :
  let out := process kurtosis_by_axis lapjv_exhaustive 1 0 two_images in
  out = process kurtosis_by_axis lapjv_exhaustive 0 0 two_images
  /\ fst out <> raise AssertionError
  /\ (size_x (snd out), size_y (snd out))
     = _get_grid_size kurtosis_by_axis (norm_data two_images) false.
Proof.
  apply (zero_size_means_automatic
           kurtosis_by_axis lapjv_exhaustive two_images 1 0).
  right. reflexivity.
Defined.

(** C9, as stated, fails: the pipeline has no [use_default_square] option.
    [process] takes the two sizes and nothing else, and whenever it sizes
    the grid itself it calls the sizer with [use_default_square=False].
    For four rows at the corners of the unit square the minimal square is
    2 x 2, yet every call that leaves the size to [process] stores
    6 x 6. *)
Lemma pipeline_default_square_counterexample :
  _get_grid_size kurtosis_by_axis (norm_data unit_square_images) true = (2, 2)
  /\ forall sx sy,
       sx = 0 \/ sy = 0 ->
       let out :=
         process kurtosis_by_axis lapjv_exhaustive sx sy unit_square_images in
       (size_x (snd out), size_y (snd out)) = (6, 6).
Proof.
  split; [vm_compute; reflexivity|].
  intros sx sy Hz. cbv zeta.
  apply truthy_false_iff in Hz.
  rewrite (process_automatic _ _ _ _ _ Hz).
  destruct (solve_and_materialize_frame lapjv_exhaustive
              (set_size unit_square_images
                 (fst (_get_grid_size kurtosis_by_axis
                         (norm_data unit_square_images) false))
                 (snd (_get_grid_size kurtosis_by_axis
                         (norm_data unit_square_images) false))))
    as (_ & Hsx & Hsy & _).
  rewrite Hsx, Hsy. vm_compute. reflexivity.
Qed.

(** C9, amended: [use_default_square] is an option of the grid sizer
    alone.  For every input of M points, when it is true the sizer skips
    the kurtosis-based bias and returns the minimal square
    [(ceil(sqrt(M)), ceil(sqrt(M)))].  [process] does not pass it on: when
    it sizes the grid itself it calls the sizer with the option off, and
    stores the size with the bias of each axis added. *)
Theorem default_square_is_sizer_option {D}
        kurtosis lapjv (self : ImageGrid D) data :
  let M := Z.of_nat (length data) in
  let s := Np.ceil_sqrt M in
  let out := process kurtosis lapjv 0 0 self in
  let base := Np.ceil_sqrt (Z.of_nat (length (norm_data self))) in
  _get_grid_size kurtosis data true = (s, s)
  /\ 0 <= s /\ M <= s * s
  /\ (s = 0 \/ (s - 1) * (s - 1) < M)
  /\ (size_x (snd out), size_y (snd out))
     = _get_grid_size kurtosis (norm_data self) false
  /\ _get_grid_size kurtosis (norm_data self) false
     = (base + axis_bias (fst (kurtosis (norm_data self))),
        base + axis_bias (snd (kurtosis (norm_data self)))).
Proof.
  cbv zeta.
  destruct (default_square_is_minimal kurtosis data) as (H1 & H2 & H3 & H4).
  split; [exact H1|]. split; [exact H2|]. split; [exact H3|].
  split; [exact H4|].
  split; [|apply grid_size_adapted].
  rewrite (process_automatic kurtosis lapjv 0 0 self eq_refl).
  destruct (solve_and_materialize_frame lapjv
              (set_size self
                 (fst (_get_grid_size kurtosis (norm_data self) false))
                 (snd (_get_grid_size kurtosis (norm_data self) false))))
    as (_ & Hsx & Hsy & _).
  rewrite Hsx, Hsy. cbn [size_x size_y set_size].
  destruct (_get_grid_size kurtosis (norm_data self) false); reflexivity.
Qed.

(** ** [process] on no points *)

Lemma mapM_length {A B} (f : A -> result B) l bs :
  mapM f l = ok bs -> length bs = length l.
Proof.
  revert bs. induction l as [|a l IH]; cbn; intros bs.
  - intros H. injection H as <-. reflexivity.
  - destruct (f a) as [e|b]; cbn; [discriminate|].
    destruct (mapM f l) as [e|bs']; cbn; [discriminate|].
    intros H. injection H as <-. cbn. rewrite (IH bs' eq_refl). reflexivity.
Qed.

Lemma get_assignments_lengths {D} lapjv (self : ImageGrid D) pts c gi a :
  solver_shape lapjv ->
  _get_assignments lapjv self pts = ok (c, gi, a) ->
  length a = length pts.
Proof.
  intros Hshape. unfold _get_assignments.
  destruct (make_grid _ _) as [e|grid]; cbn; [discriminate|].
  destruct (lapjv _) as [[[c' x] y]|] eqn:El; cbn; [|discriminate].
  destruct (mapM (py_index grid) y) as [e|a'] eqn:Ea; cbn; [discriminate|].
  intros H. injection H as <- <- <-.
  rewrite (mapM_length _ _ _ Ea).
  rewrite (Hshape _ _ _ _ El). reflexivity.
Qed.

(** C7, as stated, fails: with no rows and a 2 x 2 grid requested, even a
    solver that answers the column-less cost matrix with cost 0 and four
    unmatched cells does not let [process] finish.  The assignments array
    built from no rows has shape [(0,)], and scaling its first column
    raises [IndexError]; no image list is produced.  With no sizes given
    the outcome is an exception as well. *)
Lemma empty_input_counterexample :
  fst (process kurtosis_by_axis lapjv_exhaustive 2 2 no_images)
  = raise IndexError
  /\ image_list (snd (process kurtosis_by_axis lapjv_exhaustive 2 2 no_images))
     = []
  /\ ~ empty_input_as_specified
       (process kurtosis_by_axis lapjv_exhaustive 2 2 no_images)
  /\ ~ empty_input_as_specified
       (process kurtosis_by_axis lapjv_exhaustive 0 0 no_images)
  /\ ~ empty_input_as_specified
       (process kurtosis_flat lapjv_exhaustive 0 0 no_images).
Proof.
  split; [vm_compute; reflexivity|].
  split; [vm_compute; reflexivity|].
  unfold empty_input_as_specified.
  repeat split; intros [H _]; vm_compute in H; discriminate H.
Qed.

(** C7, amended: for an input of no points [process] does not succeed, for
    any sizes: there is no empty-input fallback.  Whenever the solver
    returns one cell per point, the call ends in an exception - at the
    latest the [IndexError] raised when the empty assignments array is
    scaled - and [image_list] keeps the value it had. *)
Theorem empty_input_raises {D} kurtosis lapjv (self : ImageGrid D) sx sy :
  data self = [] ->
  norm_data self = [] ->
  solver_shape lapjv ->
  exists e self',
    process kurtosis lapjv sx sy self = (raise e, self')
    /\ image_list self' = image_list self.
Proof.
  intros Hdata Hnorm Hshape.
  assert (Hsolve : forall s : ImageGrid D,
             norm_data s = [] ->
             exists e s', solve_and_materialize lapjv s = (raise e, s')
                          /\ image_list s' = image_list s).
  { intros s Hs.
    cbv [solve_and_materialize bind get lift put ok].
    destruct (_get_assignments lapjv s (norm_data s))
      as [e|[[c gi] a]] eqn:Ea.
    - exists e, s. split; reflexivity.
    - apply (get_assignments_lengths lapjv s _ _ _ _ Hshape) in Ea.
      rewrite Hs in Ea. destruct a as [|p a]; [|discriminate Ea].
      exists IndexError, (set_solution s c gi []). split; reflexivity. }
  destruct (truthy sx && truthy sy) eqn:Ht.
  - rewrite (process_explicit kurtosis lapjv sx sy self Ht).
    destruct (Z.of_nat (length (data self)) <=? sx * sy).
    + destruct (Hsolve (set_size self sx sy) Hnorm) as (e & s' & Hp & Hi).
      exists e, s'. split; [exact Hp | exact Hi].
    + exists AssertionError, self. split; reflexivity.
  - rewrite (process_automatic kurtosis lapjv sx sy self Ht).
    destruct (Hsolve (set_size self
                        (fst (_get_grid_size kurtosis (norm_data self) false))
                        (snd (_get_grid_size kurtosis (norm_data self) false)))
                     Hnorm) as (e & s' & Hp & Hi).
    exists e, s'. split; [exact Hp | exact Hi].
Qed.

(** ** The lattice *)

Lemma linspace_ok n :
  0 <= n ->
  exists xs,
    Np.linspace_0_1 n = ok xs
    /\ length xs = Z.to_nat n
    /\ forall i, (i < Z.to_nat n)%nat ->
         exists v, nth_error xs i = Some v
                   /\ (v == inject_Z (Z.of_nat i) / inject_Z n)%Q.
Proof.
  intros Hn. unfold Np.linspace_0_1.
  apply Z.ltb_ge in Hn. rewrite Hn.
  eexists. split; [reflexivity|].
  split; [rewrite length_map, length_seq; reflexivity|].
  intros i Hi.
  rewrite nth_error_map, nth_error_seq.
  apply Nat.ltb_lt in Hi. rewrite Hi. cbn [option_map Nat.add].
  eexists. split; [reflexivity|].
  unfold Qdiv. ring.
Qed.

Lemma meshgrid_length xs ys :
  length (Np.meshgrid_pairs xs ys) = (length ys * length xs)%nat.
Proof.
  unfold Np.meshgrid_pairs.
  induction ys as [|y ys IH]; [reflexivity|].
  cbn [flat_map length]. rewrite length_app, length_map, IH. cbn. reflexivity.
Qed.

Lemma meshgrid_nth xs ys r c x y :
  nth_error xs c = Some x ->
  nth_error ys r = Some y ->
  nth_error (Np.meshgrid_pairs xs ys) (r * length xs + c) = Some (x, y).
Proof.
  intros Hx. unfold Np.meshgrid_pairs.
  revert r. induction ys as [|y0 ys IH]; intros r Hy.
  - destruct r; discriminate Hy.
  - cbn [flat_map]. destruct r as [|r]; cbn in Hy.
    + injection Hy as ->. cbn [Nat.mul Nat.add].
      rewrite nth_error_app1.
      * rewrite nth_error_map, Hx. reflexivity.
      * rewrite length_map. apply nth_error_Some. congruence.
    + rewrite nth_error_app2; rewrite length_map; [|cbn; lia].
      replace (S r * length xs + c - length xs)%nat
        with (r * length xs + c)%nat by (cbn; lia).
      apply IH. exact Hy.
Qed.

(** Where a cell lies, by its column and its row. *)
Lemma make_grid_cell sx sy :
  0 <= sx -> 0 <= sy ->
  exists grid,
    make_grid sx sy = ok grid
    /\ length grid = Z.to_nat (sx * sy)
    /\ forall col row, 0 <= col < sx -> 0 <= row < sy ->
         exists p,
           nth_error grid (Z.to_nat (row * sx + col)) = Some p
           /\ pt_eq p ((inject_Z col / inject_Z sx)%Q,
                       (inject_Z row / inject_Z sy)%Q).
Proof.
  intros Hx Hy.
  destruct (linspace_ok sx Hx) as (xs & Exs & Lxs & Nxs).
  destruct (linspace_ok sy Hy) as (ys & Eys & Lys & Nys).
  exists (Np.meshgrid_pairs xs ys).
  split; [unfold make_grid; rewrite Exs, Eys; reflexivity|].
  split.
  - rewrite meshgrid_length, Lxs, Lys. rewrite Z.mul_comm. 
    rewrite Z2Nat.inj_mul by assumption. reflexivity.
  - intros col row Hc Hr.
    destruct (Nxs (Z.to_nat col) ltac:(lia)) as (vx & Ex & Qx).
    destruct (Nys (Z.to_nat row) ltac:(lia)) as (vy & Ey & Qy).
    exists (vx, vy). split.
    + replace (Z.to_nat (row * sx + col))
        with (Z.to_nat row * length xs + Z.to_nat col)%nat
        by (rewrite Lxs; nia).
      apply meshgrid_nth; assumption.
    + rewrite !Z2Nat.id in Qx, Qy by lia.
      split; cbn [fst snd]; assumption.
Qed.

(** C5: for every grid size the lattice built by the solver is the
    row-major enumeration of the [size_x * size_y] coordinates: it has that
    many cells, and the cell of linear index [row * size_x + col] has the
    coordinate [(col / size_x, row / size_y)], the lower-left corner of the
    cell for a pitch of [1 / size_x] by [1 / size_y]. *)
Theorem lattice_is_row_major sx sy :
  0 <= sx -> 0 <= sy ->
  exists grid,
    make_grid sx sy = ok grid
    /\ Z.of_nat (length grid) = sx * sy
    /\ forall col row, 0 <= col < sx -> 0 <= row < sy ->
         exists p,
           nth_error grid (Z.to_nat (row * sx + col)) = Some p
           /\ (fst p == inject_Z col * (1 / inject_Z sx))%Q
           /\ (snd p == inject_Z row * (1 / inject_Z sy))%Q.
Proof.
  intros Hx Hy.
  destruct (make_grid_cell sx sy Hx Hy) as (grid & Eg & Lg & Ng).
  exists grid. split; [exact Eg|].
  split; [rewrite Lg; apply Z2Nat.id; nia|].
  intros col row Hc Hr.
  destruct (Ng col row Hc Hr) as (p & Ep & Qx & Qy).
  exists p. split; [exact Ep|].
  cbn [fst snd] in Qx, Qy. rewrite Qx, Qy.
  split; unfold Qdiv; ring.
Qed.

Lemma lattice_is_row_major_witness :
  exists grid,
    make_grid 3 2 = ok grid
    /\ Z.of_nat (length grid) = 3 * 2
    /\ forall col row, 0 <= col < 3 -> 0 <= row < 2 ->
         exists p,
           nth_error grid (Z.to_nat (row * 3 + col)) = Some p
           /\ (fst p == inject_Z col * (1 / inject_Z 3))%Q
           /\ (snd p == inject_Z row * (1 / inject_Z 2))%Q.
Proof.
  apply (lattice_is_row_major 3 2); lia.
Defined.

(** ** What a successful [process] has stored *)

Lemma mapM_nth {A B} (f : A -> result B) l bs n a :
  mapM f l = ok bs ->
  nth_error l n = Some a ->
  exists b, f a = ok b /\ nth_error bs n = Some b.
Proof.
  revert bs n. induction l as [|a0 l IH]; intros bs n Hm Hn.
  - destruct n; discriminate Hn.
  - cbn in Hm.
    destruct (f a0) as [e|b0] eqn:Ef; cbn in Hm; [discriminate|].
    destruct (mapM f l) as [e|bs'] eqn:El; cbn in Hm; [discriminate|].
    injection Hm as <-.
    destruct n as [|n]; cbn in Hn |- *.
    + injection Hn as <-. exists b0. split; [exact Ef | reflexivity].
    + exact (IH bs' n eq_refl Hn).
Qed.

Lemma py_index_of_nat {A} (l : list A) k a :
  py_index l (Z.of_nat k) = ok a <-> nth_error l k = Some a.
Proof.
  unfold py_index.
  assert (Hneg : (Z.of_nat k <? 0) = false) by (apply Z.ltb_ge; lia).
  rewrite Hneg, Nat2Z.id.
  destruct (nth_error l k) as [a'|] eqn:En.
  - assert (Hk : (k < length l)%nat) by (apply nth_error_Some; congruence).
    replace ((0 <=? Z.of_nat k) && (Z.of_nat k <? Z.of_nat (length l)))
      with true by (symmetry; apply andb_true_iff; split;
                    [apply Z.leb_le | apply Z.ltb_lt]; lia).
    unfold ok. split; congruence.
  - destruct (_ && _); unfold ok, raise; split; discriminate.
Qed.

Lemma solve_success {D} lapjv (s s' : ImageGrid D) :
  solve_and_materialize lapjv s = (ok tt, s') ->
  exists grid c x y a,
    make_grid (size_x s) (size_y s) = ok grid
    /\ lapjv (cdist_sqeuclidean grid (norm_data s)) = Some (c, x, y)
    /\ mapM (py_index grid) y = ok a
    /\ _get_assignments lapjv s (norm_data s) = ok (c, x, a)
    /\ mapM (fun i => if i =? -1 then ok None
                      else rbind (py_index (data s) i)
                                 (fun v => ok (Some v))) x
       = ok (image_list s')
    /\ size_x s' = size_x s /\ size_y s' = size_y s
    /\ data s' = data s /\ norm_data s' = norm_data s
    /\ cost s' = c /\ grid_indices s' = x
    /\ assignments s'
       = map (fun p => ((fst p * inject_Z (size_x s))%Q,
                        (snd p * inject_Z (size_y s))%Q)) a.
Proof.
  cbv [solve_and_materialize bind get lift put ok].
  destruct (_get_assignments lapjv s (norm_data s))
    as [e|[[c gi] a]] eqn:Ea; [discriminate|].
  cbv [scale_column bind get put throw ok]. cbn [assignments set_solution].
  destruct a as [|p a]; [discriminate|].
  cbn [set_assignments assignments map size_x size_y].
  destruct (_grid_indices_to_image_list _ _) as [e|il] eqn:Ei; [discriminate|].
  intros H. injection H as <-.
  pose proof Ea as Ea'.
  unfold _get_assignments in Ea.
  destruct (make_grid _ _) as [e|grid] eqn:Eg; cbn in Ea; [discriminate|].
  destruct (lapjv _) as [[[c' x] y]|] eqn:El; cbn in Ea; [|discriminate].
  destruct (mapM (py_index grid) y) as [e|a'] eqn:Em; cbn in Ea;
    [discriminate|].
  injection Ea as -> -> ->.
  exists grid, c, gi, y, (p :: a).
  unfold _grid_indices_to_image_list in Ei. cbn in Ei.
  repeat split; try reflexivity; try assumption.
  cbn [assignments set_image_list set_assignments map fst snd].
  f_equal. rewrite map_map. reflexivity.
Qed.

Lemma process_success {D} kurtosis lapjv sx sy (self self' : ImageGrid D) :
  process kurtosis lapjv sx sy self = (ok tt, self') ->
  exists s,
    solve_and_materialize lapjv s = (ok tt, self')
    /\ data s = data self /\ norm_data s = norm_data self.
Proof.
  destruct (truthy sx && truthy sy) eqn:Ht.
  - rewrite (process_explicit _ _ _ _ _ Ht).
    destruct (_ <=? _); [|discriminate].
    intros H. eexists. split; [exact H|]. split; reflexivity.
  - rewrite (process_automatic _ _ _ _ _ Ht).
    intros H. eexists. split; [exact H|]. split; reflexivity.
Qed.

Lemma make_grid_nonneg sx sy grid :
  make_grid sx sy = ok grid -> 0 <= sx /\ 0 <= sy.
Proof.
  unfold make_grid, Np.linspace_0_1.
  destruct (sx <? 0) eqn:Ex; cbn; [discriminate|].
  destruct (sy <? 0) eqn:Ey; cbn; [discriminate|].
  intros _. apply Z.ltb_ge in Ex, Ey. split; assumption.
Qed.

(** The cell of linear index [k], by the column and the row of [k]. *)
Lemma make_grid_linear sx sy grid k :
  make_grid sx sy = ok grid ->
  (k < length grid)%nat ->
  let col := Z.of_nat k mod sx in
  let row := Z.of_nat k / sx in
  0 <= col < sx /\ 0 <= row < sy
  /\ Z.to_nat (row * sx + col) = k
  /\ exists g, nth_error grid k = Some g
               /\ (fst g * inject_Z sx == inject_Z col)%Q
               /\ (snd g * inject_Z sy == inject_Z row)%Q.
Proof.
  intros Eg Hk col row.
  destruct (make_grid_nonneg _ _ _ Eg) as [Hx Hy].
  destruct (make_grid_cell sx sy Hx Hy) as (grid' & Eg' & Lg & Ng).
  rewrite Eg in Eg'. injection Eg' as <-.
  assert (Hcells : Z.of_nat k < sx * sy) by (rewrite Lg in Hk; nia).
  assert (Hsx : 0 < sx) by nia.
  assert (Hsy : 0 < sy) by nia.
  assert (Hcol : 0 <= col < sx) by (apply Z.mod_pos_bound; assumption).
  assert (Hrow : 0 <= row < sy).
  { split; [apply Z.div_pos; lia|].
    apply Z.div_lt_upper_bound; [assumption|]. lia. }
  assert (Hlin : row * sx + col = Z.of_nat k).
  { subst row col. rewrite (Z.div_mod (Z.of_nat k) sx) at 3 by lia. ring. }
  split; [exact Hcol|]. split; [exact Hrow|].
  split; [rewrite Hlin; apply Nat2Z.id|].
  destruct (Ng col row Hcol Hrow) as (g & Hg & Qx & Qy).
  rewrite Hlin, Nat2Z.id in Hg.
  exists g. split; [exact Hg|].
  cbn [fst snd] in Qx, Qy. rewrite Qx, Qy.
  split; field; intros H0.
  - apply (inject_Z_injective sx 0) in H0. lia.
  - apply (inject_Z_injective sy 0) in H0. lia.
Qed.

(** C6 does not hold of the code: the reported coordinates are floats, and
    scaling a lattice coordinate by the grid size does not always give the
    integer back.  On seven rows and a 7 x 1 grid the solver places row
    [k] in cell [k].  In binary64 the lattice coordinate of cell 5,
    [5 * (1 / 7)], times 7 is one unit in the last place below 5, so the
    pair reported for row 5, read as an index, is cell 4 - and the slot of
    cell 4 holds the payload of row 4, not of row 5.  The comment above
    the two multiplications says what they were meant to give: "[0, n)
    indices for grid". *)
Theorem reported_column_misses_its_cell :
  let run := process kurtosis_by_axis lapjv_exhaustive 7 1 seven_images in
  let cells := [0; 1; 2; 3; 4; 5; 6] in
  fst run = ok tt
  /\ grid_indices (snd run) = cells
  /\ image_list (snd run)
     = [Some 10%nat; Some 11%nat; Some 12%nat; Some 13%nat; Some 14%nat;
        Some 15%nat; Some 16%nat]
  /\ (exists grid c,
         make_grid 7 1 = ok grid
         /\ lapjv_exhaustive (cdist_sqeuclidean grid (norm_data seven_images))
            = Some (c, cells, cells))
  /\ (exists coords,
         Binary64.reported 7 1 cells = ok coords
         /\ map (Binary64.cell_index 7) coords
            = [Some 0; Some 1; Some 2; Some 3; Some 4; Some 4; Some 6]
         /\ option_map fst (nth_error coords 5)
            = Some (SpecFloat.S754_finite false 5629499534213119 (-50))
         /\ Binary64.of_int 5
            = SpecFloat.S754_finite false 5629499534213120 (-50)).
Proof.
  cbv zeta.
  split; [vm_compute; reflexivity|].
  split; [vm_compute; reflexivity|].
  split; [vm_compute; reflexivity|].
  split.
  - eexists. eexists. split; vm_compute; reflexivity.
  - eexists. split; [vm_compute; reflexivity|].
    repeat split; vm_compute; reflexivity.
Qed.

(** ** Counting the cells *)

Lemma count_occ_unique_index (l : list Z) v i :
  nth_error l i = Some v ->
  (forall i', nth_error l i' = Some v -> i' = i) ->
  count_occ Z.eq_dec l v = 1%nat.
Proof.
  revert i. induction l as [|a l IH]; intros i Hi Huniq.
  - destruct i; discriminate Hi.
  - destruct i as [|i]; cbn in Hi.
    + injection Hi as ->.
      rewrite count_occ_cons_eq by reflexivity. f_equal.
      apply count_occ_not_In. intros Hin.
      apply In_nth_error in Hin. destruct Hin as [n Hn].
      specialize (Huniq (S n) Hn). discriminate Huniq.
    + assert (Hav : a <> v).
      { intros ->. specialize (Huniq 0%nat eq_refl). discriminate Huniq. }
      rewrite count_occ_cons_neq by assumption.
      apply (IH i Hi). intros i' Hi'.
      specialize (Huniq (S i') Hi'). injection Huniq as ->. reflexivity.
Qed.

Lemma length_sentinel_split (l : list Z) :
  length l = (count_occ Z.eq_dec l (-1)%Z + length (filter is_index l))%nat.
Proof.
  induction l as [|a l IH]; [reflexivity|].
  cbn [filter count_occ length]. unfold is_index at 1.
  destruct (Z.eq_dec a (-1)) as [->|Hne].
  - cbn. lia.
  - apply Z.eqb_neq in Hne. rewrite Hne. cbn. lia.
Qed.

Lemma count_occ_filter (f : Z -> bool) l v :
  count_occ Z.eq_dec (filter f l) v
  = if f v then count_occ Z.eq_dec l v else 0%nat.
Proof.
  induction l as [|a l IH]; cbn [filter count_occ].
  - destruct (f v); reflexivity.
  - destruct (f a) eqn:Efa; cbn [count_occ];
      destruct (Z.eq_dec a v) as [->|Hne]; rewrite IH.
    + rewrite Efa. reflexivity.
    + reflexivity.
    + rewrite Efa. reflexivity.
    + reflexivity.
Qed.

(** From the pairing of rows and columns: each column index occurs once
    among the rows, and the rows that carry -1 are the rows left over. *)
Lemma pairing_counts cm x y :
  lap_pairing cm x y ->
  (forall j v, nth_error y j = Some v -> 0 <= v) ->
  (forall j, (j < shape1 cm)%nat ->
             count_occ Z.eq_dec x (Z.of_nat j) = 1%nat)
  /\ (count_occ Z.eq_dec x (-1)%Z + shape1 cm = shape0 cm)%nat.
Proof.
  intros Hp Hall.
  assert (Hone : forall j, (j < shape1 cm)%nat ->
                           count_occ Z.eq_dec x (Z.of_nat j) = 1%nat).
  { intros j Hj.
    rewrite <- (lap_cols _ _ _ Hp) in Hj.
    destruct (nth_error y j) as [v|] eqn:Ey;
      [|apply nth_error_None in Ey; lia].
    pose proof (Hall j v Ey) as Hv.
    rewrite <- (Z2Nat.id v Hv) in Ey.
    apply (count_occ_unique_index x _ (Z.to_nat v)).
    - exact (lap_col_to_row _ _ _ Hp _ _ Ey).
    - intros i' Hi'. apply (lap_row_to_col _ _ _ Hp) in Hi'.
      rewrite Ey in Hi'. injection Hi' as Hi'. lia. }
  split; [exact Hone|].
  assert (Hperm : Permutation (filter is_index x)
                              (map Z.of_nat (seq 0 (shape1 cm)))).
  { apply NoDup_Permutation.
    - apply (NoDup_count_occ Z.eq_dec). intros v.
      rewrite count_occ_filter.
      destruct (is_index v) eqn:Ev; [|lia].
      destruct (in_dec Z.eq_dec v x) as [Hin|Hnin].
      + apply In_nth_error in Hin. destruct Hin as [i Hi].
        pose proof (lap_row_range _ _ _ Hp i v Hi) as Hrange.
        unfold is_index in Ev. apply negb_true_iff, Z.eqb_neq in Ev.
        rewrite <- (Z2Nat.id v) in Hi |- * by lia.
        pose proof (lap_row_to_col _ _ _ Hp _ _ Hi) as Hy.
        rewrite Hone; [lia|].
        rewrite <- (lap_cols _ _ _ Hp). apply nth_error_Some. congruence.
      + apply (count_occ_not_In Z.eq_dec) in Hnin. lia.
    - apply Finite.Injective_map_NoDup; [|apply seq_NoDup].
      intros a b Hab. lia.
    - intros v. rewrite filter_In, in_map_iff. split.
      + intros [Hin Ev].
        apply In_nth_error in Hin. destruct Hin as [i Hi].
        pose proof (lap_row_range _ _ _ Hp i v Hi) as Hrange.
        unfold is_index in Ev. apply negb_true_iff, Z.eqb_neq in Ev.
        exists (Z.to_nat v). split; [lia|].
        rewrite <- (Z2Nat.id v) in Hi by lia.
        pose proof (lap_row_to_col _ _ _ Hp _ _ Hi) as Hy.
        apply in_seq. split; [lia|]. cbn.
        rewrite <- (lap_cols _ _ _ Hp). apply nth_error_Some. congruence.
      + intros (j & <- & Hj). apply in_seq in Hj.
        assert (Hc : count_occ Z.eq_dec x (Z.of_nat j) = 1%nat)
          by (apply Hone; lia).
        split.
        * apply (count_occ_In Z.eq_dec). lia.
        * unfold is_index. apply negb_true_iff, Z.eqb_neq. lia. }
  apply Permutation_length in Hperm.
  rewrite length_map, length_seq in Hperm.
  rewrite <- (lap_rows _ _ _ Hp), (length_sentinel_split x), Hperm.
  reflexivity.
Qed.

(** ** Costs: the matrix, a placement, the reported coordinates *)

Lemma rbind_ok {A B} (a : A) (k : A -> result B) : rbind (ok a) k = k a.
Proof. reflexivity. Qed.

Lemma qsum_eq_map {A} (f g : A -> Q) l :
  (forall a, In a l -> f a = g a) -> qsum (map f l) = qsum (map g l).
Proof.
  intros H. rewrite (map_ext_in f g l H). reflexivity.
Qed.

Lemma entry_cdist grid pts i j :
  (i < length grid)%nat -> (j < length pts)%nat ->
  entry (cdist_sqeuclidean grid pts) i j
  = sqeuclidean (nth i grid (0, 0)%Q) (nth j pts (0, 0)%Q).
Proof.
  intros Hi Hj. unfold entry, cdist_sqeuclidean. cbn [entries].
  set (row := fun a : Q * Q => map (fun b => sqeuclidean a b) pts).
  rewrite (nth_indep (map row grid) [] (row (0, 0)%Q))
    by (rewrite length_map; exact Hi).
  rewrite (map_nth row). unfold row.
  set (g := nth i grid (0, 0)%Q).
  rewrite (nth_indep (map (fun b => sqeuclidean g b) pts) 0%Q
                     (sqeuclidean g (0, 0)%Q))
    by (rewrite length_map; exact Hj).
  rewrite (map_nth (fun b => sqeuclidean g b)). reflexivity.
Qed.

Lemma indexed_In {A} (l : list A) j a :
  In (j, a) (indexed l) -> (j < length l)%nat /\ In a l.
Proof.
  unfold indexed. intros H. split.
  - apply in_combine_l in H. apply in_seq in H. lia.
  - apply in_combine_r in H. exact H.
Qed.

Lemma matching_cost_cdist grid pts m :
  valid_matching (length grid) (length pts) m ->
  matching_cost (cdist_sqeuclidean grid pts) m = placement_cost grid pts m.
Proof.
  intros (Hlen & _ & Hrange).
  unfold matching_cost, placement_cost.
  apply qsum_eq_map. intros [j i] Hin. cbn [fst snd].
  apply indexed_In in Hin. destruct Hin as [Hj Hi].
  rewrite Forall_forall in Hrange.
  apply entry_cdist; [apply Hrange; exact Hi | lia].
Qed.

Lemma mapM_Forall2 {A B} (f : A -> result B) l bs :
  mapM f l = ok bs -> Forall2 (fun a b => f a = ok b) l bs.
Proof.
  revert bs. induction l as [|a l IH]; cbn; intros bs H.
  - injection H as <-. constructor.
  - destruct (f a) as [e|b] eqn:Ef; cbn in H; [discriminate|].
    destruct (mapM f l) as [e|bs'] eqn:El; cbn in H; [discriminate|].
    injection H as <-. constructor; [exact Ef | apply IH; reflexivity].
Qed.

(** The cost of the reported coordinates is the cost of the placement that
    the second index array describes. *)
Lemma assignment_cost_placement grid pts :
  forall y a s rest,
    Forall2 (fun v g => py_index grid v = ok g) y a ->
    Forall (fun v => 0 <= v) y ->
    length rest = length y ->
    (forall j, nth_error rest j = nth_error pts (s + j)) ->
    map (fun ji => sqeuclidean (nth (snd ji) grid (0, 0)%Q)
                               (nth (fst ji) pts (0, 0)%Q))
        (combine (seq s (length (map Z.to_nat y))) (map Z.to_nat y))
    = map (fun gp => sqeuclidean (fst gp) (snd gp)) (combine a rest).
Proof.
  intros y a s rest H. revert s rest.
  induction H as [|v g y a Hvg Hya IH]; intros s rest Hpos Hlen Hrest.
  - reflexivity.
  - destruct rest as [|p rest]; [discriminate Hlen|].
    inversion Hpos as [|? ? Hv Hpos']; subst.
    cbn [map length seq combine fst snd]. f_equal.
    + rewrite <- (Z2Nat.id v Hv) in Hvg. apply py_index_of_nat in Hvg.
      rewrite (nth_error_nth _ _ _ Hvg).
      pose proof (Hrest 0%nat) as H0. cbn in H0.
      rewrite Nat.add_0_r in H0. symmetry in H0.
      rewrite (nth_error_nth _ _ _ H0). reflexivity.
    + apply IH; [exact Hpos' | cbn in Hlen; lia|].
      intros j. specialize (Hrest (S j)). cbn in Hrest.
      rewrite Hrest. f_equal. lia.
Qed.

(** The matching that the second index array describes is a one-to-one
    placement of the columns on the rows, and the first index array takes
    each of its rows back to the column. *)
Lemma matching_of_pairing cm x y :
  lap_pairing cm x y ->
  (forall j v, nth_error y j = Some v -> 0 <= v) ->
  valid_matching (shape0 cm) (shape1 cm) (map Z.to_nat y)
  /\ forall j, (j < shape1 cm)%nat ->
       exists k, nth_error (map Z.to_nat y) j = Some k
                 /\ nth_error y j = Some (Z.of_nat k)
                 /\ nth_error x k = Some (Z.of_nat j)
                 /\ (k < shape0 cm)%nat.
Proof.
  intros Hp Hall.
  assert (Hcell : forall j, (j < shape1 cm)%nat ->
             exists k, nth_error (map Z.to_nat y) j = Some k
                       /\ nth_error y j = Some (Z.of_nat k)
                       /\ nth_error x k = Some (Z.of_nat j)
                       /\ (k < shape0 cm)%nat).
  { intros j Hj. rewrite <- (lap_cols _ _ _ Hp) in Hj.
    destruct (nth_error y j) as [v|] eqn:Ey;
      [|apply nth_error_None in Ey; lia].
    pose proof (Hall j v Ey) as Hv.
    exists (Z.to_nat v). rewrite nth_error_map, Ey. cbn [option_map].
    rewrite (Z2Nat.id v Hv). split; [reflexivity|]. split; [reflexivity|].
    rewrite <- (Z2Nat.id v Hv) in Ey.
    pose proof (lap_col_to_row _ _ _ Hp _ _ Ey) as Hx.
    split; [exact Hx|].
    rewrite <- (lap_rows _ _ _ Hp). apply nth_error_Some. congruence. }
  split; [|exact Hcell].
  assert (Hlen : length (map Z.to_nat y) = shape1 cm)
    by (rewrite length_map; exact (lap_cols _ _ _ Hp)).
  split; [exact Hlen|]. split.
  - apply NoDup_nth_error. intros i j Hi Hij.
    rewrite Hlen in Hi.
    destruct (Hcell i Hi) as (k & Hmi & _ & Hxi & _).
    rewrite Hmi in Hij. symmetry in Hij.
    assert (Hj : (j < shape1 cm)%nat).
    { rewrite <- Hlen. apply nth_error_Some. congruence. }
    destruct (Hcell j Hj) as (k' & Hmj & _ & Hxj & _).
    rewrite Hij in Hmj. injection Hmj as <-.
    rewrite Hxi in Hxj. injection Hxj as Hxj. lia.
  - apply Forall_forall. intros k Hk.
    apply In_nth_error in Hk. destruct Hk as [j Hj].
    assert (Hjl : (j < shape1 cm)%nat).
    { rewrite <- Hlen. apply nth_error_Some. congruence. }
    destruct (Hcell j Hjl) as (k' & Hmj & _ & _ & Hlt).
    rewrite Hj in Hmj. injection Hmj as <-. exact Hlt.
Qed.

(** C1: for M points and a grid of [size_x * size_y >= M] cells, a solver
    that keeps its contract makes [_get_assignments] return (for M >= 1 it
    does return) a one-to-one placement of the M points on distinct cells
    of the lattice: one coordinate is reported per point, it is the
    lattice coordinate of the point's cell, and the per-cell index array
    names the point at that cell.  The cost returned is the total squared
    distance of this placement and is at most that of any other one-to-one
    placement on the same lattice; every point index occurs exactly once
    in the per-cell index array; and the cells that carry the empty
    sentinel number [size_x * size_y - M]. *)
Theorem assignment_is_optimal {D} lapjv (self : ImageGrid D) pts :
  solver_contract lapjv ->
  solver_answers lapjv ->
  0 <= size_x self -> 0 <= size_y self ->
  Z.of_nat (length pts) <= size_x self * size_y self ->
  ((1 <= length pts)%nat ->
   exists r, _get_assignments lapjv self pts = ok r)
  /\ forall c gi a,
       _get_assignments lapjv self pts = ok (c, gi, a) ->
       exists grid m,
         make_grid (size_x self) (size_y self) = ok grid
         /\ Z.of_nat (length grid) = size_x self * size_y self
         /\ valid_matching (length grid) (length pts) m
         /\ length gi = length grid
         /\ length a = length pts
         /\ (forall j, (j < length pts)%nat ->
                exists k g,
                  nth_error m j = Some k
                  /\ nth_error grid k = Some g
                  /\ nth_error a j = Some g
                  /\ nth_error gi k = Some (Z.of_nat j))
         /\ (c == placement_cost grid pts m)%Q
         /\ (c == assignment_cost a pts)%Q
         /\ (forall m', valid_matching (length grid) (length pts) m' ->
                (placement_cost grid pts m <= placement_cost grid pts m')%Q)
         /\ (forall i, (i < length pts)%nat ->
                       count_occ Z.eq_dec gi (Z.of_nat i) = 1%nat)
         /\ Z.of_nat (count_occ Z.eq_dec gi (-1))
            = size_x self * size_y self - Z.of_nat (length pts).
Proof.
  intros Hcontract Hanswers Hx Hy Hcells.
  destruct (make_grid_cell _ _ Hx Hy) as (grid & Eg & Lg & _).
  assert (Hfit : (length pts <= length grid)%nat) by (rewrite Lg; lia).
  unfold _get_assignments. rewrite Eg, rbind_ok.
  set (cm := cdist_sqeuclidean grid pts).
  split.
  - intros HM.
    destruct (lapjv cm) as [[[c x] y]|] eqn:El.
    + destruct (Hcontract _ _ _ _ El) as [Hp Hopt].
      specialize (Hopt Hfit).
      assert (Hm : exists a, mapM (py_index grid) y = ok a).
      { assert (Hall : forall v, In v y ->
                                 exists g, py_index grid v = ok g).
        { intros v Hin. apply In_nth_error in Hin. destruct Hin as [j Hj].
          pose proof (lap_all_matched _ _ _ Hopt _ _ Hj) as Hv.
          rewrite <- (Z2Nat.id v Hv) in Hj |- *.
          pose proof (lap_col_to_row _ _ _ Hp _ _ Hj) as Hxi.
          assert (Hlt : (Z.to_nat v < length grid)%nat).
          { pose proof (lap_rows _ _ _ Hp) as Hr. cbn in Hr. rewrite <- Hr.
            apply nth_error_Some. congruence. }
          destruct (nth_error grid (Z.to_nat v)) as [g|] eqn:Eg';
            [|apply nth_error_None in Eg'; lia].
          exists g. apply py_index_of_nat. exact Eg'. }
        clear -Hall. induction y as [|v y IH]; [exists []; reflexivity|].
        destruct (Hall v (or_introl eq_refl)) as [g Hg].
        destruct IH as [a Ha]; [intros w Hw; apply Hall; right; exact Hw|].
        exists (g :: a). cbn. rewrite Hg, Ha. reflexivity. }
      destruct Hm as [a Ha]. cbv beta iota. rewrite Ha. cbn.
      eexists. reflexivity.
    + exfalso. apply (Hanswers cm); [|exact El]. cbn. lia.
  - intros c gi a Hrun.
    destruct (lapjv cm) as [[[c' x] y]|] eqn:El; [|discriminate Hrun].
    cbv beta iota in Hrun.
    destruct (mapM (py_index grid) y) as [e|a'] eqn:Em; cbn in Hrun;
      [discriminate|].
    injection Hrun as -> -> ->.
    destruct (Hcontract _ _ _ _ El) as [Hp Hopt].
    specialize (Hopt Hfit).
    destruct (matching_of_pairing cm gi y Hp (lap_all_matched _ _ _ Hopt))
      as [Hvalid Hcell].
    cbn [shape0 shape1 cm cdist_sqeuclidean] in Hvalid, Hcell.
    pose proof (lap_rows _ _ _ Hp) as Hrows. cbn in Hrows.
    pose proof (lap_cols _ _ _ Hp) as Hcols. cbn in Hcols.
    pose proof (mapM_length _ _ _ Em) as Hlen_a.
    exists grid, (map Z.to_nat y).
    split; [reflexivity|].
    split; [rewrite Lg; apply Z2Nat.id; nia|].
    split; [exact Hvalid|].
    split; [exact Hrows|].
    split; [lia|].
    assert (Hcost : matching_cost cm (map Z.to_nat y) = assignment_cost a pts).
    { unfold matching_cost, assignment_cost, indexed.
      rewrite <- (assignment_cost_placement grid pts y a 0%nat pts).
      - apply qsum_eq_map. intros [j i] Hin. cbn [fst snd].
        apply indexed_In in Hin. destruct Hin as [Hj Hi].
        rewrite length_map in Hj.
        apply in_map_iff in Hi. destruct Hi as (v & <- & Hv).
        apply In_nth_error in Hv. destruct Hv as [j' Hj'].
        pose proof (lap_all_matched _ _ _ Hopt _ _ Hj') as Hv.
        rewrite <- (Z2Nat.id v Hv) in Hj'.
        pose proof (lap_col_to_row _ _ _ Hp _ _ Hj') as Hxi.
        apply entry_cdist; [|lia].
        rewrite <- Hrows. apply nth_error_Some. congruence.
      - apply mapM_Forall2. exact Em.
      - apply Forall_forall. intros v Hv.
        apply In_nth_error in Hv. destruct Hv as [j Hj].
        exact (lap_all_matched _ _ _ Hopt _ _ Hj).
      - symmetry. exact Hcols.
      - intros j. reflexivity. }
    split.
    { intros j Hj. destruct (Hcell j Hj) as (k & Hmj & Hyj & Hxk & Hk).
      destruct (mapM_nth _ _ _ _ _ Em Hyj) as (g & Hg & Hag).
      apply py_index_of_nat in Hg.
      exists k, g. repeat split; assumption. }
    split.
    { rewrite <- (matching_cost_cdist grid pts _ Hvalid).
      exact (lap_cost _ _ _ Hopt). }
    split; [rewrite <- Hcost; exact (lap_cost _ _ _ Hopt)|].
    split.
    { intros m' Hm'.
      rewrite <- (matching_cost_cdist grid pts _ Hvalid).
      rewrite <- (matching_cost_cdist grid pts m' Hm').
      apply (Qle_trans _ c).
      - apply Qle_lteq. right. symmetry. exact (lap_cost _ _ _ Hopt).
      - apply (lap_minimal _ _ _ Hopt). exact Hm'. }
    destruct (pairing_counts cm gi y Hp (lap_all_matched _ _ _ Hopt))
      as [Hone Hrest].
    split; [exact Hone|].
    cbn in Hrest. lia.
Qed.

(** ** The reference solver keeps the contract *)

Lemma injections_sound rows k m :
  In m (injections rows k) ->
  length m = k /\ NoDup m /\ Forall (fun i => In i rows) m.
Proof.
  revert rows m. induction k as [|k IH]; intros rows m Hin; cbn in Hin.
  - destruct Hin as [<-|[]]. repeat split; constructor.
  - apply in_flat_map in Hin. destruct Hin as (r & Hr & Hin).
    apply in_map_iff in Hin. destruct Hin as (m' & <- & Hm').
    destruct (IH _ _ Hm') as (Hlen & Hnd & Hall).
    rewrite Forall_forall in Hall.
    split; [cbn; congruence|]. split.
    + constructor; [|exact Hnd].
      intros Hrm. apply Hall in Hrm. apply in_remove in Hrm.
      destruct Hrm as [_ Hne]. apply Hne. reflexivity.
    + constructor; [exact Hr|].
      apply Forall_forall. intros i Hi. apply Hall in Hi.
      apply in_remove in Hi. tauto.
Qed.

Lemma injections_complete rows k m :
  length m = k -> NoDup m -> Forall (fun i => In i rows) m ->
  In m (injections rows k).
Proof.
  revert rows m. induction k as [|k IH]; intros rows m Hlen Hnd Hall.
  - destruct m; [left; reflexivity | discriminate Hlen].
  - destruct m as [|r m]; [discriminate Hlen|].
    inversion Hnd as [|? ? Hnotin Hnd']; subst.
    inversion Hall as [|? ? Hr Hall']; subst.
    cbn [injections]. apply in_flat_map. exists r. split; [exact Hr|].
    apply in_map. apply IH.
    + cbn in Hlen. lia.
    + exact Hnd'.
    + rewrite Forall_forall in Hall' |- *. intros i Hi.
      apply in_in_remove; [|apply Hall'; exact Hi].
      intros ->. apply Hnotin. exact Hi.
Qed.

Lemma injections_valid nrows ncols m :
  In m (injections (seq 0 nrows) ncols) <-> valid_matching nrows ncols m.
Proof.
  unfold valid_matching. split.
  - intros Hin. destruct (injections_sound _ _ _ Hin) as (Hl & Hn & Ha).
    split; [exact Hl|]. split; [exact Hn|].
    rewrite Forall_forall in Ha |- *. intros i Hi.
    apply Ha, in_seq in Hi. lia.
  - intros (Hl & Hn & Ha). apply injections_complete; try assumption.
    rewrite Forall_forall in Ha |- *. intros i Hi.
    apply in_seq. specialize (Ha i Hi). cbn in Ha. lia.
Qed.

Lemma fold_cheaper_spec cm l init b :
  fold_left (cheaper cm) l init = Some b ->
  (init = Some b \/ In b l)
  /\ (forall m, In m l -> (matching_cost cm b <= matching_cost cm m)%Q)
  /\ (forall b0, init = Some b0 ->
                 (matching_cost cm b <= matching_cost cm b0)%Q).
Proof.
  revert init. induction l as [|a l IH]; intros init Hf; cbn in Hf.
  - subst init. split; [left; reflexivity|].
    split; [intros m []|].
    intros b0 H. injection H as <-. apply Qle_refl.
  - destruct (IH _ Hf) as (Hin & Hmin & Hinit).
    assert (Ha : (matching_cost cm b <= matching_cost cm a)%Q
                 /\ forall b0, init = Some b0 ->
                      (matching_cost cm b <= matching_cost cm b0)%Q).
    { destruct init as [b1|]; cbn in Hinit.
      - destruct (Qle_bool (matching_cost cm b1) (matching_cost cm a)) eqn:E.
        + apply Qle_bool_iff in E.
          pose proof (Hinit b1 eq_refl) as H1.
          split; [eapply Qle_trans; eassumption|].
          intros b0 H. injection H as <-. exact H1.
        + pose proof (Hinit a eq_refl) as H1.
          split; [exact H1|].
          intros b0 H. injection H as <-.
          assert (Hlt : (matching_cost cm a < matching_cost cm b1)%Q).
          { apply Qnot_le_lt. intros Hle. apply Qle_bool_iff in Hle.
            congruence. }
          eapply Qle_trans; [exact H1 | apply Qlt_le_weak; exact Hlt].
      - split; [exact (Hinit a eq_refl) | discriminate]. }
    destruct Ha as [Ha Hb0].
    split.
    + destruct Hin as [Hc|Hin]; [|right; right; exact Hin].
      destruct init as [b1|]; cbn in Hc.
      * destruct (Qle_bool _ _); injection Hc as <-;
          [left; reflexivity | right; left; reflexivity].
      * injection Hc as <-. right; left; reflexivity.
    + split; [|exact Hb0].
      intros m [<-|Hm]; [exact Ha | exact (Hmin m Hm)].
Qed.

Lemma fold_cheaper_some cm l b :
  fold_left (cheaper cm) l (Some b) <> None.
Proof.
  revert b. induction l as [|a l IH]; intros b; cbn; [discriminate|].
  destruct (Qle_bool _ _); apply IH.
Qed.

Lemma find_indexed_sound (m : list nat) i s ji :
  find (fun ji => Nat.eqb (snd ji) i) (combine (seq s (length m)) m)
  = Some ji ->
  snd ji = i /\ (s <= fst ji)%nat /\ nth_error m (fst ji - s) = Some i.
Proof.
  revert s. induction m as [|a m IH]; intros s Hf; cbn in Hf;
    [discriminate|].
  destruct (Nat.eqb a i) eqn:E.
  - injection Hf as <-. apply Nat.eqb_eq in E. cbn [fst snd].
    rewrite Nat.sub_diag. cbn. subst a. repeat split. lia.
  - destruct (IH _ Hf) as (H1 & H2 & H3).
    split; [exact H1|]. split; [lia|].
    replace (fst ji - s)%nat with (S (fst ji - S s)) by lia.
    exact H3.
Qed.

Lemma find_indexed_first (m : list nat) i s j :
  NoDup m -> nth_error m j = Some i ->
  find (fun ji => Nat.eqb (snd ji) i) (combine (seq s (length m)) m)
  = Some ((s + j)%nat, i).
Proof.
  revert s j. induction m as [|a m IH]; intros s j Hnd Hj.
  - destruct j; discriminate Hj.
  - inversion Hnd as [|? ? Hnotin Hnd']; subst.
    cbn [length seq combine find snd].
    destruct j as [|j]; cbn in Hj.
    + injection Hj as ->. rewrite Nat.eqb_refl, Nat.add_0_r. reflexivity.
    + assert (Hne : Nat.eqb a i = false).
      { apply Nat.eqb_neq. intros ->. apply Hnotin.
        eapply nth_error_In. exact Hj. }
      rewrite Hne, (IH (S s) j Hnd' Hj). f_equal. f_equal. lia.
Qed.

Lemma nth_error_map_of_nat (m : list nat) j i :
  nth_error (map Z.of_nat m) j = Some (Z.of_nat i) <->
  nth_error m j = Some i.
Proof.
  rewrite nth_error_map.
  destruct (nth_error m j) as [i'|]; cbn; split; intros H;
    try discriminate; injection H as H; f_equal; lia.
Qed.

Theorem lapjv_exhaustive_contract : solver_contract lapjv_exhaustive.
Proof.
  intros cm c x y Hrun. unfold lapjv_exhaustive in Hrun.
  destruct (best_matching cm) as [m|] eqn:Eb; [|discriminate].
  injection Hrun as <- <- <-.
  unfold best_matching in Eb.
  destruct (fold_cheaper_spec _ _ _ _ Eb) as ([Hnone|Hin] & Hmin & _);
    [discriminate|].
  pose proof Hin as Hvalid. apply injections_valid in Hvalid.
  destruct Hvalid as (Hlen & Hnd & Hrange).
  rewrite Forall_forall in Hrange.
  split.
  - constructor.
    + rewrite length_map, length_seq. reflexivity.
    + rewrite length_map. exact Hlen.
    + intros i v Hv. rewrite nth_error_map in Hv.
      destruct (nth_error (seq 0 (shape0 cm)) i) as [i'|]; [|discriminate].
      cbn in Hv. injection Hv as <-. unfold column_of.
      destruct (find _ _); lia.
    + intros j v Hv. rewrite nth_error_map in Hv.
      destruct (nth_error m j); [|discriminate].
      cbn in Hv. injection Hv as <-. lia.
    + intros i j Hx. apply nth_error_map_of_nat.
      rewrite nth_error_map, nth_error_seq in Hx.
      destruct (Nat.ltb i (shape0 cm)); [|discriminate].
      cbn in Hx. injection Hx as Hx. unfold column_of, indexed in Hx.
      destruct (find _ _) as [ji|] eqn:Ef; [|lia].
      apply find_indexed_sound in Ef. destruct Ef as (_ & _ & Hm).
      rewrite Nat.sub_0_r in Hm.
      replace j with (fst ji) by lia. exact Hm.
    + intros i j Hy. apply nth_error_map_of_nat in Hy.
      assert (Hi : (i < shape0 cm)%nat)
        by (apply Hrange; eapply nth_error_In; exact Hy).
      rewrite nth_error_map, nth_error_seq.
      apply Nat.ltb_lt in Hi. rewrite Hi. cbn. f_equal.
      unfold column_of, indexed.
      rewrite (find_indexed_first m i 0 j Hnd Hy). reflexivity.
  - intros _. constructor.
    + intros j v Hv. rewrite nth_error_map in Hv.
      destruct (nth_error m j); [|discriminate].
      cbn in Hv. injection Hv as <-. lia.
    + rewrite Qred_correct, map_map.
      rewrite (map_ext (fun i => Z.to_nat (Z.of_nat i)) (fun i => i))
        by (intros; apply Nat2Z.id).
      rewrite map_id. reflexivity.
    + intros m' Hm'. rewrite Qred_correct.
      apply Hmin. apply injections_valid. exact Hm'.
Qed.

Theorem lapjv_exhaustive_answers : solver_answers lapjv_exhaustive.
Proof.
  intros cm [_ Hfit] Hnone. unfold lapjv_exhaustive in Hnone.
  destruct (best_matching cm) as [m|] eqn:Eb; [discriminate|].
  unfold best_matching in Eb.
  assert (Hin : In (seq 0 (shape1 cm))
                   (injections (seq 0 (shape0 cm)) (shape1 cm))).
  { apply injections_valid. split; [apply length_seq|].
    split; [apply seq_NoDup|].
    apply Forall_forall. intros i Hi. apply in_seq in Hi. lia. }
  destruct (injections (seq 0 (shape0 cm)) (shape1 cm)) as [|a l];
    [destruct Hin|].
  cbn in Eb. exact (fold_cheaper_some _ _ _ Eb).
Qed.

Lemma lapjv_exhaustive_shape : solver_shape lapjv_exhaustive.
Proof.
  intros cm c x y Hrun.
  destruct (lapjv_exhaustive_contract _ _ _ _ Hrun) as [Hp _].
  exact (lap_cols _ _ _ Hp).
Qed.

(** ** The claims on concrete inputs *)

Lemma empty_input_raises_witness :
  exists e self',
    process kurtosis_by_axis lapjv_exhaustive 2 2 no_images = (raise e, self')
    /\ image_list self' = image_list no_images.
Proof.
  apply (empty_input_raises kurtosis_by_axis lapjv_exhaustive no_images 2 2).
  - reflexivity.
  - reflexivity.
  - exact lapjv_exhaustive_shape.
Defined.

Lemma assignment_is_optimal_witness :
  ((1 <= length (norm_data two_images_sized))%nat ->
   exists r,
     _get_assignments lapjv_exhaustive two_images_sized
                      (norm_data two_images_sized) = ok r)
  /\ forall c gi a,
       _get_assignments lapjv_exhaustive two_images_sized
                        (norm_data two_images_sized) = ok (c, gi, a) ->
       exists grid m,
         make_grid (size_x two_images_sized) (size_y two_images_sized)
         = ok grid
         /\ Z.of_nat (length grid)
            = size_x two_images_sized * size_y two_images_sized
         /\ valid_matching (length grid)
                           (length (norm_data two_images_sized)) m
         /\ length gi = length grid
         /\ length a = length (norm_data two_images_sized)
         /\ (forall j, (j < length (norm_data two_images_sized))%nat ->
                exists k g,
                  nth_error m j = Some k
                  /\ nth_error grid k = Some g
                  /\ nth_error a j = Some g
                  /\ nth_error gi k = Some (Z.of_nat j))
         /\ (c == placement_cost grid (norm_data two_images_sized) m)%Q
         /\ (c == assignment_cost a (norm_data two_images_sized))%Q
         /\ (forall m',
                valid_matching (length grid)
                               (length (norm_data two_images_sized)) m' ->
                (placement_cost grid (norm_data two_images_sized) m
                 <= placement_cost grid (norm_data two_images_sized) m')%Q)
         /\ (forall i, (i < length (norm_data two_images_sized))%nat ->
                       count_occ Z.eq_dec gi (Z.of_nat i) = 1%nat)
         /\ Z.of_nat (count_occ Z.eq_dec gi (-1))
            = size_x two_images_sized * size_y two_images_sized
              - Z.of_nat (length (norm_data two_images_sized)).
Proof.
  apply (assignment_is_optimal lapjv_exhaustive two_images_sized
                               (norm_data two_images_sized)).
  - exact lapjv_exhaustive_contract.
  - exact lapjv_exhaustive_answers.
  - cbn. lia.
  - cbn. lia.
  - cbn. lia.
Defined.

(** The run of [two_images] on a 2 x 2 grid, and the sizes of two small
    inputs. *)

Example two_images_run :
  process kurtosis_by_axis lapjv_exhaustive 2 2 two_images
  = (ok tt, two_images_placed)
  /\ _get_assignments lapjv_exhaustive two_images_sized
                      (norm_data two_images_sized)
     = ok ((1 # 2)%Q, [0; -1; -1; 1], [(0 # 2, 0 # 2); (1 # 2, 1 # 2)]%Q).
Proof. split; vm_compute; reflexivity. Qed.

Example unit_square_default_grid :
  _get_grid_size kurtosis_by_axis [(0, 0); (1, 0); (0, 1); (1, 1)]%Q true
  = (2, 2).
Proof. reflexivity. Qed.

Example five_points_base_grid :
  Np.ceil_sqrt 5 = 3
  /\ _get_grid_size kurtosis_by_axis scatter5 true = (3, 3)
  /\ _get_grid_size kurtosis_by_axis scatter5 false = (6, 6).
Proof. repeat split; vm_compute; reflexivity. Qed.

(* ================================================================== *)
(** * Further properties of the module *)
(* ================================================================== *)

(** ** [process], step by step *)

Lemma get_assignments_sizes {D} lapjv (s1 s2 : ImageGrid D) pts :
  size_x s1 = size_x s2 -> size_y s1 = size_y s2 ->
  _get_assignments lapjv s1 pts = _get_assignments lapjv s2 pts.
Proof.
  intros Hx Hy. unfold _get_assignments. rewrite Hx, Hy. reflexivity.
Qed.

Lemma image_list_slots {D} (s : ImageGrid D) images :
  _grid_indices_to_image_list s images
  = mapM (slot_of images) (grid_indices s).
Proof. reflexivity. Qed.

(** The outcome of the second half of [process] and the object it leaves,
    by the step at which it stops. *)
Lemma solve_and_materialize_run {D} lapjv (s : ImageGrid D) :
  solve_and_materialize lapjv s
  = match _get_assignments lapjv s (norm_data s) with
    | inl e => (inl e, s)
    | inr (c, gi, a) =>
        match a with
        | [] => (raise IndexError, set_solution s c gi [])
        | _ :: _ =>
            let s1 := set_assignments (set_solution s c gi a) (scaled s a) in
            match mapM (slot_of (data s)) gi with
            | inl e => (inl e, s1)
            | inr il => (ok tt, set_image_list s1 il)
            end
        end
    end.
Proof.
  cbv [solve_and_materialize bind get lift put ok].
  destruct (_get_assignments lapjv s (norm_data s))
    as [e|[[c gi] a]]; [reflexivity|].
  cbv [scale_column bind get put throw ok]. cbn [assignments set_solution].
  destruct a as [|p a]; [reflexivity|].
  cbn [set_assignments assignments map size_x size_y].
  rewrite image_list_slots.
  cbn [grid_indices set_assignments set_solution data].
  unfold scaled. cbn [map fst snd].
  destruct (mapM (slot_of (data s)) gi); reflexivity.
Qed.

(** [process] reads [data] and [norm_data] and nothing else of the object:
    two objects that agree on these give the same outcome, and on success
    the same object, whatever an earlier run had left in the result
    fields. *)
Theorem process_ignores_stale_results {D}
        kurtosis lapjv sx sy (s1 s2 : ImageGrid D) :
  data s1 = data s2 ->
  norm_data s1 = norm_data s2 ->
  fst (process kurtosis lapjv sx sy s1) = fst (process kurtosis lapjv sx sy s2)
  /\ (fst (process kurtosis lapjv sx sy s1) = ok tt ->
      snd (process kurtosis lapjv sx sy s1)
      = snd (process kurtosis lapjv sx sy s2)).
Proof.
  intros Hd Hn.
  assert (Hsolve : forall a b,
             let o1 := solve_and_materialize lapjv (set_size s1 a b) in
             let o2 := solve_and_materialize lapjv (set_size s2 a b) in
             fst o1 = fst o2 /\ (fst o1 = ok tt -> snd o1 = snd o2)).
  { intros a b. cbv zeta. rewrite !solve_and_materialize_run.
    cbn [norm_data data set_size]. rewrite <- Hn, <- Hd.
    rewrite (get_assignments_sizes lapjv (set_size s2 a b) (set_size s1 a b))
      by reflexivity.
    destruct (_get_assignments lapjv (set_size s1 a b) (norm_data s1))
      as [e|[[c gi] [|p l]]]; cbn [fst snd].
    - split; [reflexivity | discriminate].
    - split; [reflexivity | discriminate].
    - cbv zeta.
      destruct (mapM (slot_of (data s1)) gi) as [e|il]; cbn [fst snd].
      + split; [reflexivity | discriminate].
      + split; [reflexivity|]. intros _.
        unfold set_image_list, set_assignments, set_solution, set_size, scaled.
        cbn. rewrite Hd, Hn. reflexivity. }
  destruct (truthy sx && truthy sy) eqn:Ht.
  - rewrite !(process_explicit _ _ _ _ _ Ht). rewrite <- Hd.
    destruct (Z.of_nat (length (data s1)) <=? sx * sy).
    + apply Hsolve.
    + cbn. split; [reflexivity | discriminate].
  - rewrite !(process_automatic _ _ _ _ _ Ht). rewrite <- Hn.
    apply Hsolve.
Qed.

Lemma process_ignores_stale_results_witness :
  fst (process kurtosis_by_axis lapjv_exhaustive 2 2 two_images)
  = fst (process kurtosis_by_axis lapjv_exhaustive 2 2 stale_images)
  /\ (fst (process kurtosis_by_axis lapjv_exhaustive 2 2 two_images) = ok tt ->
      snd (process kurtosis_by_axis lapjv_exhaustive 2 2 two_images)
      = snd (process kurtosis_by_axis lapjv_exhaustive 2 2 stale_images)).
Proof.
  apply (process_ignores_stale_results
           kurtosis_by_axis lapjv_exhaustive 2 2 two_images stale_images);
    reflexivity.
Defined.

(** Running [process] again with the same sizes on the object it has left
    gives the same outcome and leaves the object as it is - after a
    success and after an exception alike. *)
Theorem process_rerun_is_idempotent {D}
        kurtosis lapjv sx sy (self : ImageGrid D) :
  process kurtosis lapjv sx sy (snd (process kurtosis lapjv sx sy self))
  = process kurtosis lapjv sx sy self.
Proof.
  assert (Hsolve : forall a b,
             let o := solve_and_materialize lapjv (set_size self a b) in
             solve_and_materialize lapjv (set_size (snd o) a b) = o
             /\ data (snd o) = data self
             /\ norm_data (snd o) = norm_data self).
  { intros a b. cbv zeta. rewrite (solve_and_materialize_run lapjv (set_size self a b)).
    cbn [norm_data data set_size].
    destruct (_get_assignments lapjv (set_size self a b) (norm_data self))
      as [e|[[c gi] [|p l]]] eqn:Ea; cbn [fst snd].
    - split; [|split; reflexivity].
      rewrite solve_and_materialize_run. cbn [norm_data set_size].
      rewrite (get_assignments_sizes lapjv _ (set_size self a b))
        by reflexivity.
      rewrite Ea. reflexivity.
    - split; [|split; reflexivity].
      rewrite solve_and_materialize_run. cbn [norm_data set_size set_solution].
      rewrite (get_assignments_sizes lapjv _ (set_size self a b))
        by reflexivity.
      rewrite Ea. reflexivity.
    - cbv zeta.
      destruct (mapM (slot_of (data self)) gi) as [e|il] eqn:Ei;
        cbn [fst snd]; (split; [|split; reflexivity]);
        rewrite solve_and_materialize_run;
        cbn [norm_data data set_size set_solution set_assignments
             set_image_list];
        rewrite (get_assignments_sizes lapjv _ (set_size self a b))
          by reflexivity;
        rewrite Ea; cbv zeta; rewrite Ei; reflexivity. }
  destruct (truthy sx && truthy sy) eqn:Ht.
  - rewrite (process_explicit kurtosis lapjv sx sy self Ht).
    destruct (Z.of_nat (length (data self)) <=? sx * sy) eqn:Efit.
    + destruct (Hsolve sx sy) as (Hrun & Hd & _).
      rewrite (process_explicit _ _ _ _ _ Ht), Hd, Efit. exact Hrun.
    + cbn [snd]. rewrite (process_explicit _ _ _ _ _ Ht), Efit. reflexivity.
  - rewrite (process_automatic kurtosis lapjv sx sy self Ht).
    set (g := _get_grid_size kurtosis (norm_data self) false).
    destruct (Hsolve (fst g) (snd g)) as (Hrun & _ & Hn).
    rewrite (process_automatic _ _ _ _ _ Ht), Hn. exact Hrun.
Qed.

(** Two negative sizes whose product covers the rows pass the size check:
    the sizes are stored, and the call then fails with [ValueError] when
    the lattice is built, before the solver is consulted. *)
Theorem negative_sizes_pass_the_check {D}
        kurtosis lapjv (self : ImageGrid D) sx sy :
  sx < 0 -> sy < 0 ->
  Z.of_nat (length (data self)) <= sx * sy ->
  process kurtosis lapjv sx sy self = (raise ValueError, set_size self sx sy).
Proof.
  intros Hx Hy Hfit.
  rewrite process_explicit.
  - apply Z.leb_le in Hfit. rewrite Hfit.
    rewrite solve_and_materialize_run.
    unfold _get_assignments, make_grid, Np.linspace_0_1.
    cbn [size_x size_y set_size].
    apply Z.ltb_lt in Hx. rewrite Hx. reflexivity.
  - unfold truthy.
    apply andb_true_iff. split; apply negb_true_iff, Z.eqb_neq; lia.
Qed.

Lemma negative_sizes_pass_the_check_witness :
  process kurtosis_by_axis lapjv_exhaustive (-2) (-1) two_images
  = (raise ValueError, set_size two_images (-2) (-1)).
Proof.
  apply (negative_sizes_pass_the_check
           kurtosis_by_axis lapjv_exhaustive two_images (-2) (-1)).
  - lia.
  - lia.
  - cbn. lia.
Defined.

(** Two sizes that pass the check are stored as given and stay stored,
    whether the rest of the call succeeds or raises; the exception, if
    any, is not the assertion failure. *)
Theorem explicit_sizes_are_stored {D}
        kurtosis lapjv (self : ImageGrid D) sx sy :
  sx <> 0 -> sy <> 0 ->
  Z.of_nat (length (data self)) <= sx * sy ->
  let out := process kurtosis lapjv sx sy self in
  size_x (snd out) = sx /\ size_y (snd out) = sy
  /\ fst out <> raise AssertionError.
Proof.
  intros Hx Hy Hfit. cbv zeta.
  rewrite process_explicit.
  - apply Z.leb_le in Hfit. rewrite Hfit.
    destruct (solve_and_materialize_frame lapjv (set_size self sx sy))
      as (Hne & Hsx & Hsy & _).
    rewrite Hsx, Hsy. repeat split. exact Hne.
  - unfold truthy.
    apply andb_true_iff. split; apply negb_true_iff, Z.eqb_neq; assumption.
Qed.

Lemma explicit_sizes_are_stored_witness :
  let out := process kurtosis_by_axis lapjv_exhaustive 3 1 two_images in
  size_x (snd out) = 3 /\ size_y (snd out) = 1
  /\ fst out <> raise AssertionError.
Proof.
  apply (explicit_sizes_are_stored
           kurtosis_by_axis lapjv_exhaustive two_images 3 1).
  - lia.
  - lia.
  - cbn. lia.
Defined.

(** [process] never changes [data] or [norm_data], and it replaces
    [image_list] only when it succeeds: after any exception the list is
    the one the object had. *)
Theorem process_keeps_inputs {D} kurtosis lapjv sx sy (self : ImageGrid D) :
  data (snd (process kurtosis lapjv sx sy self)) = data self
  /\ norm_data (snd (process kurtosis lapjv sx sy self)) = norm_data self
  /\ forall e, fst (process kurtosis lapjv sx sy self) = raise e ->
               image_list (snd (process kurtosis lapjv sx sy self))
               = image_list self.
Proof.
  destruct (truthy sx && truthy sy) eqn:Ht.
  - rewrite (process_explicit _ _ _ _ _ Ht).
    destruct (Z.of_nat (length (data self)) <=? sx * sy).
    + destruct (solve_and_materialize_frame lapjv (set_size self sx sy))
        as (_ & _ & _ & Hd & Hn & Hi).
      split; [exact Hd|]. split; [exact Hn|]. exact Hi.
    + cbn. repeat split; reflexivity.
  - rewrite (process_automatic _ _ _ _ _ Ht).
    destruct (solve_and_materialize_frame lapjv
                (set_size self
                   (fst (_get_grid_size kurtosis (norm_data self) false))
                   (snd (_get_grid_size kurtosis (norm_data self) false))))
      as (_ & _ & _ & Hd & Hn & Hi).
    split; [exact Hd|]. split; [exact Hn|]. exact Hi.
Qed.

(** ** The output list *)

Lemma slot_of_sentinel {A} (images : list A) i slot :
  slot_of images i = ok slot ->
  (i = -1 /\ slot = None)
  \/ (i <> -1 /\ exists v, py_index images i = ok v /\ slot = Some v).
Proof.
  unfold slot_of. destruct (i =? -1) eqn:E.
  - apply Z.eqb_eq in E. intros H. injection H as <-. left. split; auto.
  - apply Z.eqb_neq in E.
    destruct (py_index images i) as [e|v]; cbn; [discriminate|].
    intros H. injection H as <-. right. split; [exact E|].
    exists v. split; reflexivity.
Qed.

(** The output list has one slot per cell, and a slot holds the empty
    marker exactly when the cell carries the sentinel -1; every other slot
    holds the row the cell's index selects. *)
Theorem image_list_marks_empty_cells {D} (s : ImageGrid D) images il :
  _grid_indices_to_image_list s images = ok il ->
  length il = length (grid_indices s)
  /\ (forall k, nth_error il k = Some None
                <-> nth_error (grid_indices s) k = Some (-1))
  /\ (forall k v, nth_error il k = Some (Some v) ->
                  exists i, nth_error (grid_indices s) k = Some i
                            /\ i <> -1 /\ py_index images i = ok v).
Proof.
  rewrite image_list_slots. intros Hm.
  pose proof (mapM_length _ _ _ Hm) as Hlen.
  split; [exact Hlen|].
  assert (Hnth : forall k slot,
             nth_error il k = Some slot ->
             exists i, nth_error (grid_indices s) k = Some i
                       /\ slot_of images i = ok slot).
  { intros k slot Hk.
    destruct (nth_error (grid_indices s) k) as [i|] eqn:Ei.
    - destruct (mapM_nth _ _ _ _ _ Hm Ei) as (b & Hb & Hkb).
      rewrite Hk in Hkb. injection Hkb as <-. exists i. split; auto.
    - apply nth_error_None in Ei.
      assert (k < length il)%nat by (apply nth_error_Some; congruence).
      lia. }
  split.
  - intros k. split.
    + intros Hk. destruct (Hnth k None Hk) as (i & Hi & Hs).
      apply slot_of_sentinel in Hs.
      destruct Hs as [[-> _]|(_ & v & _ & Hv)]; [exact Hi | discriminate].
    + intros Hk. destruct (mapM_nth _ _ _ _ _ Hm Hk) as (b & Hb & Hkb).
      cbn in Hb. injection Hb as <-. exact Hkb.
  - intros k v Hk. destruct (Hnth k (Some v) Hk) as (i & Hi & Hs).
    apply slot_of_sentinel in Hs.
    destruct Hs as [[_ Hv]|(Hne & v' & Hp & Hv)]; [discriminate|].
    injection Hv as <-. exists i. repeat split; assumption.
Qed.

Lemma image_list_marks_empty_cells_witness :
  length [Some 10%nat; None; None; Some 11%nat]
  = length (grid_indices two_images_placed)
  /\ (forall k, nth_error [Some 10%nat; None; None; Some 11%nat] k = Some None
                <-> nth_error (grid_indices two_images_placed) k = Some (-1))
  /\ (forall k v,
         nth_error [Some 10%nat; None; None; Some 11%nat] k = Some (Some v) ->
         exists i, nth_error (grid_indices two_images_placed) k = Some i
                   /\ i <> -1 /\ py_index [10%nat; 11%nat] i = ok v).
Proof.
  apply (image_list_marks_empty_cells two_images_placed [10%nat; 11%nat]).
  reflexivity.
Defined.

(** When every cell carries -1 or an index below the number of rows, the
    output list is built without an exception. *)
Theorem image_list_in_range_succeeds {D} (s : ImageGrid D) images :
  Forall (fun i => i = -1 \/ 0 <= i < Z.of_nat (length images))
         (grid_indices s) ->
  exists il, _grid_indices_to_image_list s images = ok il.
Proof.
  rewrite image_list_slots.
  induction (grid_indices s) as [|i gi IH]; intros Hall.
  - exists []. reflexivity.
  - inversion Hall as [|? ? Hi Hgi]; subst.
    destruct (IH Hgi) as [il Hil].
    assert (Hslot : exists slot, slot_of images i = ok slot).
    { unfold slot_of. destruct (i =? -1) eqn:E; [exists None; reflexivity|].
      apply Z.eqb_neq in E. destruct Hi as [Hi|Hi]; [contradiction|].
      destruct (nth_error images (Z.to_nat i)) as [v|] eqn:Ev;
        [|apply nth_error_None in Ev; lia].
      exists (Some v).
      rewrite <- (Z2Nat.id i) by lia.
      apply py_index_of_nat in Ev. rewrite Ev. reflexivity. }
    destruct Hslot as [slot Hslot].
    exists (slot :: il). cbn [mapM]. rewrite Hslot, Hil. reflexivity.
Qed.

Lemma image_list_in_range_succeeds_witness :
  exists il,
    _grid_indices_to_image_list two_images_placed [10%nat; 11%nat] = ok il.
Proof.
  apply (image_list_in_range_succeeds two_images_placed [10%nat; 11%nat]).
  cbn. repeat constructor; lia.
Defined.

Lemma mapM_failure {A B} (f : A -> result B) l a e :
  In a l -> f a = raise e -> exists e', mapM f l = raise e'.
Proof.
  induction l as [|a0 l IH]; intros Hin Hf; [destruct Hin|].
  cbn [mapM].
  destruct (f a0) as [e0|b] eqn:E0; [exists e0; reflexivity|].
  destruct Hin as [->|Hin]; [unfold raise in Hf; congruence|].
  destruct (IH Hin Hf) as [e' He']. rewrite He'. exists e'. reflexivity.
Qed.

(** A cell index at or beyond the number of rows makes the output list
    fail with [IndexError]; no list is returned. *)
Theorem image_list_out_of_range_raises {D} (s : ImageGrid D) images i :
  In i (grid_indices s) ->
  Z.of_nat (length images) <= i ->
  _grid_indices_to_image_list s images = raise IndexError.
Proof.
  intros Hin Hi. rewrite image_list_slots.
  assert (Hf : slot_of images i = raise IndexError).
  { unfold slot_of, py_index.
    assert (E1 : (i =? -1) = false) by (apply Z.eqb_neq; lia).
    assert (E2 : (i <? 0) = false) by (apply Z.ltb_ge; lia).
    assert (E3 : (i <? Z.of_nat (length images)) = false)
      by (apply Z.ltb_ge; lia).
    rewrite E1, E2, E3, andb_false_r. reflexivity. }
  destruct (mapM_failure _ _ _ _ Hin Hf) as [e He].
  rewrite He. f_equal.
  apply (mapM_error (slot_of images) IndexError _ _) in He; [exact He|].
  intros a e' Ha. unfold slot_of in Ha.
  destruct (a =? -1); [discriminate|].
  destruct (py_index images a) as [e''|v] eqn:Ep; cbn in Ha; [|discriminate].
  unfold raise in Ha. injection Ha as <-. exact (py_index_error _ _ _ Ep).
Qed.

Lemma image_list_out_of_range_raises_witness :
  _grid_indices_to_image_list stale_images [10%nat; 11%nat]
  = raise IndexError.
Proof.
  apply (image_list_out_of_range_raises stale_images [10%nat; 11%nat] 2).
  - cbn. left. reflexivity.
  - cbn. lia.
Defined.

(** ** A successful run, part by part *)

Lemma solve_success_parts {D} lapjv (s s' : ImageGrid D) :
  solve_and_materialize lapjv s = (ok tt, s') ->
  exists grid c x y p a il,
    make_grid (size_x s) (size_y s) = ok grid
    /\ lapjv (cdist_sqeuclidean grid (norm_data s)) = Some (c, x, y)
    /\ mapM (py_index grid) y = ok (p :: a)
    /\ mapM (slot_of (data s)) x = ok il
    /\ s' = set_image_list
              (set_assignments (set_solution s c x (p :: a))
                               (scaled s (p :: a))) il.
Proof.
  rewrite solve_and_materialize_run.
  destruct (_get_assignments lapjv s (norm_data s))
    as [e|[[c gi] [|p a]]] eqn:Ea; try discriminate.
  cbv zeta.
  destruct (mapM (slot_of (data s)) gi) as [e|il] eqn:Ei; [discriminate|].
  intros H. injection H as <-.
  unfold _get_assignments in Ea.
  destruct (make_grid _ _) as [e|grid] eqn:Eg; cbn in Ea; [discriminate|].
  destruct (lapjv _) as [[[c' x] y]|] eqn:El; cbn in Ea; [|discriminate].
  destruct (mapM (py_index grid) y) as [e|a'] eqn:Em; cbn in Ea;
    [discriminate|].
  injection Ea as -> -> ->.
  exists grid, c, gi, y, p, a, il. repeat split; assumption.
Qed.

Lemma process_success_parts {D} kurtosis lapjv sx sy (self self' : ImageGrid D) :
  process kurtosis lapjv sx sy self = (ok tt, self') ->
  exists grid c x y p a il,
    make_grid (size_x self') (size_y self') = ok grid
    /\ lapjv (cdist_sqeuclidean grid (norm_data self)) = Some (c, x, y)
    /\ mapM (py_index grid) y = ok (p :: a)
    /\ mapM (slot_of (data self)) x = ok il
    /\ cost self' = c /\ grid_indices self' = x
    /\ assignments self' = scaled self' (p :: a)
    /\ image_list self' = il.
Proof.
  intros Hrun.
  destruct (process_success _ _ _ _ _ _ Hrun) as (s & Hs & Hd & Hn).
  destruct (solve_success_parts _ _ _ Hs)
    as (grid & c & x & y & p & a & il & Eg & El & Em & Ei & ->).
  rewrite Hd in Ei. rewrite Hn in El.
  exists grid, c, x, y, p, a, il.
  cbn [size_x size_y set_image_list set_assignments set_solution
       cost grid_indices assignments image_list].
  repeat split; assumption.
Qed.

Lemma scaled_nth {D} (s : ImageGrid D) a i g :
  nth_error a i = Some g ->
  nth_error (scaled s a) i
  = Some ((fst g * inject_Z (size_x s))%Q, (snd g * inject_Z (size_y s))%Q).
Proof.
  intros H. unfold scaled. rewrite map_map, nth_error_map, H. reflexivity.
Qed.

Lemma py_index_nil {A} (i : Z) : py_index (@nil A) i = raise IndexError.
Proof.
  unfold py_index. cbn [length Z.of_nat].
  destruct ((0 <=? _) && _) eqn:E; [|reflexivity].
  apply andb_true_iff in E. destruct E as [E1 E2].
  apply Z.leb_le in E1. apply Z.ltb_lt in E2. lia.
Qed.

Lemma grid_cells {sx sy grid} :
  make_grid sx sy = ok grid ->
  0 <= sx /\ 0 <= sy /\ Z.of_nat (length grid) = sx * sy.
Proof.
  intros Eg. destruct (make_grid_nonneg _ _ _ Eg) as [Hx Hy].
  destruct (make_grid_cell sx sy Hx Hy) as (grid' & Eg' & Lg & _).
  rewrite Eg in Eg'. injection Eg' as <-.
  split; [exact Hx|]. split; [exact Hy|].
  rewrite Lg. apply Z2Nat.id. nia.
Qed.

(** After a successful [process] the grid has at least one cell along each
    axis, the output list and the per-cell index array have one entry per
    cell, [size_x * size_y] of them, and one coordinate pair is reported
    per point, of which there is at least one. *)
Theorem output_shape {D} kurtosis lapjv sx sy (self self' : ImageGrid D) :
  solver_contract lapjv ->
  process kurtosis lapjv sx sy self = (ok tt, self') ->
  1 <= size_x self' /\ 1 <= size_y self'
  /\ Z.of_nat (length (image_list self')) = size_x self' * size_y self'
  /\ length (grid_indices self') = length (image_list self')
  /\ length (assignments self') = length (norm_data self)
  /\ (1 <= length (norm_data self))%nat.
Proof.
  intros Hsolver Hrun.
  destruct (process_success_parts _ _ _ _ _ _ Hrun)
    as (grid & c & x & y & p & a & il & Eg & El & Em & Ei
        & _ & -> & -> & ->).
  destruct (Hsolver _ _ _ _ El) as [Hp _].
  pose proof (lap_rows _ _ _ Hp) as Hr. cbn in Hr.
  pose proof (lap_cols _ _ _ Hp) as Hc. cbn in Hc.
  pose proof (mapM_length _ _ _ Em) as Hlen_a.
  pose proof (mapM_length _ _ _ Ei) as Hlen_il.
  destruct (grid_cells Eg) as (Hx & Hy & Hcells).
  assert (Hgrid : (1 <= length grid)%nat).
  { destruct y as [|v y]; [discriminate Hlen_a|].
    cbn in Em. destruct (py_index grid v) as [e|g] eqn:Ev; [discriminate|].
    destruct grid; [|cbn; lia].
    rewrite py_index_nil in Ev. discriminate Ev. }
  split; [nia|]. split; [nia|].
  split; [rewrite Hlen_il, Hr; exact Hcells|].
  split; [lia|].
  split.
  - unfold scaled. rewrite !length_map. lia.
  - cbn in Hlen_a. lia.
Qed.

Lemma output_shape_witness :
  1 <= size_x two_images_placed /\ 1 <= size_y two_images_placed
  /\ Z.of_nat (length (image_list two_images_placed))
     = size_x two_images_placed * size_y two_images_placed
  /\ length (grid_indices two_images_placed)
     = length (image_list two_images_placed)
  /\ length (assignments two_images_placed) = length (norm_data two_images)
  /\ (1 <= length (norm_data two_images))%nat.
Proof.
  apply (output_shape kurtosis_by_axis lapjv_exhaustive 2 2
                      two_images two_images_placed).
  - exact lapjv_exhaustive_contract.
  - vm_compute. reflexivity.
Defined.

Lemma empty_slots_are_sentinels {A} (images : list A) x il :
  mapM (slot_of images) x = ok il ->
  length (filter is_empty_slot il) = count_occ Z.eq_dec x (-1).
Proof.
  revert il. induction x as [|i x IH]; intros il Hm; cbn in Hm.
  - injection Hm as <-. reflexivity.
  - destruct (slot_of images i) as [e|slot] eqn:Es; cbn in Hm; [discriminate|].
    destruct (mapM (slot_of images) x) as [e|il'] eqn:Ex; cbn in Hm;
      [discriminate|].
    injection Hm as <-. cbn [filter count_occ].
    specialize (IH il' eq_refl).
    apply slot_of_sentinel in Es.
    destruct Es as [[-> ->]|(Hne & v & _ & ->)]; cbn [is_empty_slot].
    + destruct (Z.eq_dec (-1) (-1)) as [_|Hn]; [|contradiction].
      cbn. rewrite IH. reflexivity.
    + destruct (Z.eq_dec i (-1)) as [He|_]; [contradiction|]. exact IH.
Qed.

Lemma filter_split_length {A} (f : A -> bool) l :
  (length (filter f l) + length (filter (fun a => negb (f a)) l))%nat
  = length l.
Proof.
  induction l as [|a l IH]; [reflexivity|].
  cbn [filter]. destruct (f a); cbn; lia.
Qed.

(** After a successful [process] on a grid with at least as many cells as
    points, the output list holds exactly one filled slot per point; all
    the other [size_x * size_y - M] slots hold the empty marker. *)
Theorem empty_slot_count {D} kurtosis lapjv sx sy (self self' : ImageGrid D) :
  solver_contract lapjv ->
  process kurtosis lapjv sx sy self = (ok tt, self') ->
  Z.of_nat (length (norm_data self)) <= size_x self' * size_y self' ->
  length (filter (fun slot => negb (is_empty_slot slot)) (image_list self'))
  = length (norm_data self)
  /\ Z.of_nat (length (filter is_empty_slot (image_list self')))
     = size_x self' * size_y self' - Z.of_nat (length (norm_data self)).
Proof.
  intros Hsolver Hrun Hfit.
  destruct (process_success_parts _ _ _ _ _ _ Hrun)
    as (grid & c & x & y & p & a & il & Eg & El & Em & Ei
        & _ & _ & _ & ->).
  destruct (grid_cells Eg) as (Hx & Hy & Hcells).
  destruct (Hsolver _ _ _ _ El) as [Hp Hopt].
  assert (Hle : (length (norm_data self) <= length grid)%nat) by lia.
  specialize (Hopt Hle).
  destruct (pairing_counts _ _ _ Hp (lap_all_matched _ _ _ Hopt))
    as [_ Hcount].
  cbn in Hcount.
  pose proof (empty_slots_are_sentinels _ _ _ Ei) as Hempty.
  pose proof (filter_split_length is_empty_slot il) as Hsplit.
  pose proof (mapM_length _ _ _ Ei) as Hlen_il.
  pose proof (lap_rows _ _ _ Hp) as Hr. cbn in Hr.
  split; lia.
Qed.

Lemma empty_slot_count_witness :
  length (filter (fun slot => negb (is_empty_slot slot))
                 (image_list two_images_placed))
  = length (norm_data two_images)
  /\ Z.of_nat (length (filter is_empty_slot (image_list two_images_placed)))
     = size_x two_images_placed * size_y two_images_placed
       - Z.of_nat (length (norm_data two_images)).
Proof.
  apply (empty_slot_count kurtosis_by_axis lapjv_exhaustive 2 2
                          two_images two_images_placed).
  - exact lapjv_exhaustive_contract.
  - vm_compute. reflexivity.
  - cbn. lia.
Defined.

(** ** The lattice, again *)

Lemma make_grid_coordinates sx sy grid k g :
  make_grid sx sy = ok grid ->
  nth_error grid k = Some g ->
  let col := Z.of_nat k mod sx in
  let row := Z.of_nat k / sx in
  0 < sx /\ 0 < sy
  /\ 0 <= col < sx /\ 0 <= row < sy
  /\ row * sx + col = Z.of_nat k
  /\ (fst g * inject_Z sx == inject_Z col)%Q
  /\ (snd g * inject_Z sy == inject_Z row)%Q.
Proof.
  intros Eg Hg col row.
  assert (Hk : (k < length grid)%nat) by (apply nth_error_Some; congruence).
  destruct (make_grid_linear _ _ _ _ Eg Hk)
    as (Hcol & Hrow & Hlin & g' & Hg' & Qx & Qy).
  rewrite Hg in Hg'. injection Hg' as <-.
  fold col row in Hcol, Hrow, Hlin, Qx, Qy.
  assert (Hsx : 0 < sx) by (destruct Hcol; eapply Z.le_lt_trans; eassumption).
  assert (Hsy : 0 < sy) by (destruct Hrow; eapply Z.le_lt_trans; eassumption).
  assert (Hk' : row * sx + col = Z.of_nat k).
  { assert (Hnn : 0 <= row * sx + col).
    { destruct Hcol, Hrow. apply Z.add_nonneg_nonneg; [|assumption].
      apply Z.mul_nonneg_nonneg; [assumption|]. apply Z.lt_le_incl, Hsx. }
    pose proof (Z2Nat.id _ Hnn) as Hid. rewrite Hlin in Hid.
    symmetry. exact Hid. }
  split; [exact Hsx|]. split; [exact Hsy|].
  split; [exact Hcol|]. split; [exact Hrow|].
  split; [exact Hk'|]. split; assumption.
Qed.

(** Every lattice coordinate lies in the half-open unit square: no cell is
    placed at coordinate 1 on either axis. *)
Theorem lattice_in_unit_square sx sy grid p :
  make_grid sx sy = ok grid ->
  In p grid ->
  (0 <= fst p)%Q /\ (fst p < 1)%Q /\ (0 <= snd p)%Q /\ (snd p < 1)%Q.
Proof.
  intros Eg Hin. apply In_nth_error in Hin. destruct Hin as [k Hk].
  destruct (make_grid_coordinates _ _ _ _ _ Eg Hk)
    as (Hsx & Hsy & Hcol & Hrow & _ & Qx & Qy).
  assert (Hqx : (inject_Z 0 < inject_Z sx)%Q)
    by (rewrite <- Zlt_Qlt; exact Hsx).
  assert (Hqy : (inject_Z 0 < inject_Z sy)%Q)
    by (rewrite <- Zlt_Qlt; exact Hsy).
  change (inject_Z 0) with 0%Q in Hqx, Hqy.
  assert (Ex : (fst p == inject_Z (Z.of_nat k mod sx) / inject_Z sx)%Q).
  { rewrite <- Qx. field. intros H0. rewrite H0 in Hqx.
    exact (Qlt_irrefl 0 Hqx). }
  assert (Ey : (snd p == inject_Z (Z.of_nat k / sx) / inject_Z sy)%Q).
  { rewrite <- Qy. field. intros H0. rewrite H0 in Hqy.
    exact (Qlt_irrefl 0 Hqy). }
  rewrite Ex, Ey.
  split; [|split; [|split]].
  - apply Qle_shift_div_l; [exact Hqx|].
    rewrite Qmult_0_l. change 0%Q with (inject_Z 0).
    rewrite <- Zle_Qle. apply Hcol.
  - apply Qlt_shift_div_r; [exact Hqx|].
    rewrite Qmult_1_l, <- Zlt_Qlt. apply Hcol.
  - apply Qle_shift_div_l; [exact Hqy|].
    rewrite Qmult_0_l. change 0%Q with (inject_Z 0).
    rewrite <- Zle_Qle. apply Hrow.
  - apply Qlt_shift_div_r; [exact Hqy|].
    rewrite Qmult_1_l, <- Zlt_Qlt. apply Hrow.
Qed.

Lemma lattice_in_unit_square_witness :
  (0 <= fst (2 # 3, 1 # 2))%Q /\ (fst (2 # 3, 1 # 2) < 1)%Q
  /\ (0 <= snd (2 # 3, 1 # 2))%Q /\ (snd (2 # 3, 1 # 2) < 1)%Q.
Proof.
  apply (lattice_in_unit_square 3 2
           [(0 # 3, 0 # 2); (1 # 3, 0 # 2); (2 # 3, 0 # 2);
            (0 # 3, 1 # 2); (1 # 3, 1 # 2); (2 # 3, 1 # 2)]%Q).
  - vm_compute. reflexivity.
  - cbn. do 5 right. left. reflexivity.
Defined.

(** Two different cells of the lattice never have the same coordinate. *)
Theorem lattice_cells_distinct sx sy grid k1 k2 p1 p2 :
  make_grid sx sy = ok grid ->
  nth_error grid k1 = Some p1 ->
  nth_error grid k2 = Some p2 ->
  pt_eq p1 p2 ->
  k1 = k2.
Proof.
  intros Eg H1 H2 [Hx Hy].
  destruct (make_grid_coordinates _ _ _ _ _ Eg H1)
    as (_ & _ & _ & _ & Hlin1 & Qx1 & Qy1).
  destruct (make_grid_coordinates _ _ _ _ _ Eg H2)
    as (_ & _ & _ & _ & Hlin2 & Qx2 & Qy2).
  rewrite Hx, Qx2 in Qx1. rewrite Hy, Qy2 in Qy1.
  pose proof (proj1 (inject_Z_injective _ _) Qx1) as Hcol.
  pose proof (proj1 (inject_Z_injective _ _) Qy1) as Hrow.
  apply Nat2Z.inj. rewrite <- Hlin1, <- Hlin2, Hcol, Hrow. reflexivity.
Qed.

Lemma lattice_cells_distinct_witness : 1%nat = 1%nat.
Proof.
  apply (lattice_cells_distinct 2 2
           [(0 # 2, 0 # 2); (1 # 2, 0 # 2); (0 # 2, 1 # 2); (1 # 2, 1 # 2)]%Q
           1 1 (1 # 2, 0 # 2)%Q (1 # 2, 0 # 2)%Q).
  - vm_compute. reflexivity.
  - reflexivity.
  - reflexivity.
  - split; reflexivity.
Defined.

(** ** Where the points are reported *)

Lemma reported_cell {D} kurtosis lapjv sx sy (self self' : ImageGrid D) i k :
  solver_contract lapjv ->
  process kurtosis lapjv sx sy self = (ok tt, self') ->
  nth_error (grid_indices self') k = Some (Z.of_nat i) ->
  exists p,
    nth_error (assignments self') i = Some p
    /\ (fst p == inject_Z (Z.of_nat k mod size_x self'))%Q
    /\ (snd p == inject_Z (Z.of_nat k / size_x self'))%Q
    /\ 0 < size_x self'.
Proof.
  intros Hsolver Hrun Hk.
  destruct (process_success_parts _ _ _ _ _ _ Hrun)
    as (grid & c & x & y & p & a & il & Eg & El & Em & _
        & _ & Hgi & Ha & _).
  rewrite Hgi in Hk. rewrite Ha.
  destruct (Hsolver _ _ _ _ El) as [Hp _].
  pose proof (lap_row_to_col _ _ _ Hp _ _ Hk) as Hy.
  destruct (mapM_nth _ _ _ _ _ Em Hy) as (g & Hg & Hag).
  apply py_index_of_nat in Hg.
  destruct (make_grid_coordinates _ _ _ _ _ Eg Hg)
    as (Hsx & _ & _ & _ & _ & Qx & Qy).
  eexists. split; [apply scaled_nth; exact Hag|].
  cbn [fst snd]. split; [exact Qx|]. split; [exact Qy | exact Hsx].
Qed.

(** After a successful [process] two different rows that the per-cell
    array places are never reported at the same (column, row). *)
Theorem placed_images_do_not_collide {D}
        kurtosis lapjv sx sy (self self' : ImageGrid D) i j k1 k2 p q :
  solver_contract lapjv ->
  process kurtosis lapjv sx sy self = (ok tt, self') ->
  nth_error (grid_indices self') k1 = Some (Z.of_nat i) ->
  nth_error (grid_indices self') k2 = Some (Z.of_nat j) ->
  nth_error (assignments self') i = Some p ->
  nth_error (assignments self') j = Some q ->
  pt_eq p q ->
  i = j.
Proof.
  intros Hsolver Hrun Hk1 Hk2 Hp Hq [Hx Hy].
  destruct (reported_cell _ _ _ _ _ _ _ _ Hsolver Hrun Hk1)
    as (p' & Hp' & Px & Py & Hsx).
  destruct (reported_cell _ _ _ _ _ _ _ _ Hsolver Hrun Hk2)
    as (q' & Hq' & Qx & Qy & _).
  rewrite Hp in Hp'. injection Hp' as <-.
  rewrite Hq in Hq'. injection Hq' as <-.
  rewrite Hx, Qx in Px. rewrite Hy, Qy in Py.
  pose proof (proj1 (inject_Z_injective _ _) Px) as Hcol.
  pose proof (proj1 (inject_Z_injective _ _) Py) as Hrow.
  assert (Hk : k1 = k2).
  { apply Nat2Z.inj.
    rewrite (Z.div_mod (Z.of_nat k1) (size_x self')) by lia.
    rewrite (Z.div_mod (Z.of_nat k2) (size_x self')) by lia.
    rewrite Hcol, Hrow. reflexivity. }
  subst k2. rewrite Hk1 in Hk2. injection Hk2 as Hij.
  apply Nat2Z.inj. exact Hij.
Qed.

Lemma placed_images_do_not_collide_witness : 1%nat = 1%nat.
Proof.
  apply (placed_images_do_not_collide
           kurtosis_by_axis lapjv_exhaustive 2 2 two_images two_images_placed
           1 1 3 3 (2 # 2, 2 # 2)%Q (2 # 2, 2 # 2)%Q).
  - exact lapjv_exhaustive_contract.
  - vm_compute. reflexivity.
  - reflexivity.
  - reflexivity.
  - reflexivity.
  - reflexivity.
  - split; reflexivity.
Defined.

(** ** The stored cost *)

Lemma Qsquare_nonneg (x : Q) : (0 <= x * x)%Q.
Proof.
  destruct x as [n d]. unfold Qle, Qmult. cbn.
  rewrite Z.mul_1_r. apply Z.square_nonneg.
Qed.

Lemma sqeuclidean_nonneg a b : (0 <= sqeuclidean a b)%Q.
Proof.
  unfold sqeuclidean.
  apply (Qplus_le_compat 0 _ 0); apply Qsquare_nonneg.
Qed.

Lemma entry_cdist_nonneg grid pts i j :
  (0 <= entry (cdist_sqeuclidean grid pts) i j)%Q.
Proof.
  unfold entry, cdist_sqeuclidean. cbn [entries].
  destruct (nth_in_or_default i
              (map (fun a => map (fun b => sqeuclidean a b) pts) grid) [])
    as [Hin|Hd].
  - apply in_map_iff in Hin. destruct Hin as (g & <- & _).
    destruct (nth_in_or_default j (map (fun b => sqeuclidean g b) pts) 0%Q)
      as [Hin|Hd].
    + apply in_map_iff in Hin. destruct Hin as (b & <- & _).
      apply sqeuclidean_nonneg.
    + rewrite Hd. apply Qle_refl.
  - rewrite Hd. destruct j; apply Qle_refl.
Qed.

Lemma qsum_nonneg l : Forall (fun q => (0 <= q)%Q) l -> (0 <= qsum l)%Q.
Proof.
  induction 1 as [|q l Hq _ IH]; cbn; [apply Qle_refl|].
  apply (Qplus_le_compat 0 _ 0); assumption.
Qed.

(** After a successful [process] on a grid with at least as many cells as
    points, the stored cost is not negative. *)
Theorem stored_cost_nonnegative {D}
        kurtosis lapjv sx sy (self self' : ImageGrid D) :
  solver_contract lapjv ->
  process kurtosis lapjv sx sy self = (ok tt, self') ->
  Z.of_nat (length (norm_data self)) <= size_x self' * size_y self' ->
  (0 <= cost self')%Q.
Proof.
  intros Hsolver Hrun Hfit.
  destruct (process_success_parts _ _ _ _ _ _ Hrun)
    as (grid & c & x & y & p & a & il & Eg & El & _ & _ & -> & _).
  destruct (grid_cells Eg) as (_ & _ & Hcells).
  destruct (Hsolver _ _ _ _ El) as [_ Hopt].
  assert (Hle : (length (norm_data self) <= length grid)%nat) by lia.
  specialize (Hopt Hle).
  rewrite (lap_cost _ _ _ Hopt).
  unfold matching_cost. apply qsum_nonneg.
  apply Forall_forall. intros q Hq.
  apply in_map_iff in Hq. destruct Hq as (ji & <- & _).
  apply entry_cdist_nonneg.
Qed.

Lemma stored_cost_nonnegative_witness : (0 <= cost two_images_placed)%Q.
Proof.
  apply (stored_cost_nonnegative kurtosis_by_axis lapjv_exhaustive 2 2
                                 two_images two_images_placed).
  - exact lapjv_exhaustive_contract.
  - vm_compute. reflexivity.
  - cbn. lia.
Defined.

(** ** Automatic and explicit sizes *)

(** For at least one row, and a kurtosis whose bias is representable on
    both axes, the size that [process] computes when none is given would
    pass the size check, and passing that size explicitly gives the very
    same run. *)
Theorem automatic_size_passes_the_check {D}
        kurtosis lapjv (self : ImageGrid D) :
  length (norm_data self) = length (data self) ->
  (1 <= length (data self))%nat ->
  representable (fst (kurtosis (norm_data self))) ->
  representable (snd (kurtosis (norm_data self))) ->
  let g := _get_grid_size kurtosis (norm_data self) false in
  Z.of_nat (length (data self)) <= fst g * snd g
  /\ process kurtosis lapjv 0 0 self
     = process kurtosis lapjv (fst g) (snd g) self.
Proof.
  intros Hlen HN Hkx Hky g.
  assert (Hg : g = (Np.ceil_sqrt (Z.of_nat (length (data self)))
                    + axis_bias (fst (kurtosis (norm_data self))),
                    Np.ceil_sqrt (Z.of_nat (length (data self)))
                    + axis_bias (snd (kurtosis (norm_data self))))).
  { subst g. rewrite grid_size_adapted, Hlen. reflexivity. }
  apply axis_bias_representable in Hkx, Hky.
  pose proof (ceil_sqrt_covers (Z.of_nat (length (data self)))
                               (Nat2Z.is_nonneg _)) as Hcov.
  pose proof (ceil_sqrt_pos (Z.of_nat (length (data self))) ltac:(lia))
    as Hpos.
  assert (Hfit : Z.of_nat (length (data self)) <= fst g * snd g).
  { rewrite Hg. cbn [fst snd]. nia. }
  split; [exact Hfit|].
  rewrite (process_automatic kurtosis lapjv 0 0 self eq_refl).
  rewrite process_explicit.
  - apply Z.leb_le in Hfit. rewrite Hfit. reflexivity.
  - rewrite Hg. cbn [fst snd]. unfold truthy.
    apply andb_true_iff. split; apply negb_true_iff, Z.eqb_neq; lia.
Qed.

Lemma automatic_size_passes_the_check_witness :
  let g := _get_grid_size kurtosis_by_axis (norm_data two_images) false in
  Z.of_nat (length (data two_images)) <= fst g * snd g
  /\ process kurtosis_by_axis lapjv_exhaustive 0 0 two_images
     = process kurtosis_by_axis lapjv_exhaustive (fst g) (snd g) two_images.
Proof.
  apply (automatic_size_passes_the_check
           kurtosis_by_axis lapjv_exhaustive two_images).
  - reflexivity.
  - cbn. lia.
  - vm_compute. discriminate.
  - vm_compute. discriminate.
Defined.

(** ** What the solver is given, and what becomes of an unmatched point *)

Lemma sqeuclidean_compat a a' b :
  pt_eq a a' -> (sqeuclidean a b == sqeuclidean a' b)%Q.
Proof.
  intros [Hx Hy]. unfold sqeuclidean. rewrite Hx, Hy. reflexivity.
Qed.

(** The cost matrix handed to the solver has one row per cell and one
    column per point, and its entry for the cell in column [col], row
    [row] of the grid and the point [j] is the squared Euclidean distance
    between [(col / size_x, row / size_y)] and that point. *)
Theorem cost_matrix_entries sx sy grid pts col row j pt :
  make_grid sx sy = ok grid ->
  0 <= col < sx -> 0 <= row < sy ->
  nth_error pts j = Some pt ->
  let cm := cdist_sqeuclidean grid pts in
  Z.of_nat (shape0 cm) = sx * sy
  /\ shape1 cm = length pts
  /\ (entry cm (Z.to_nat (row * sx + col)) j
      == sqeuclidean ((inject_Z col / inject_Z sx)%Q,
                      (inject_Z row / inject_Z sy)%Q) pt)%Q.
Proof.
  intros Eg Hcol Hrow Hj cm.
  destruct (grid_cells Eg) as (Hx & Hy & Hcells).
  destruct (make_grid_cell sx sy Hx Hy) as (grid' & Eg' & _ & Ng).
  rewrite Eg in Eg'. injection Eg' as <-.
  destruct (Ng col row Hcol Hrow) as (g & Hg & Hpt).
  split; [exact Hcells|]. split; [reflexivity|].
  subst cm. rewrite entry_cdist.
  - rewrite (nth_error_nth _ _ _ Hg), (nth_error_nth _ _ _ Hj).
    apply sqeuclidean_compat. exact Hpt.
  - apply nth_error_Some. congruence.
  - apply nth_error_Some. congruence.
Qed.

Lemma cost_matrix_entries_witness :
  let cm := cdist_sqeuclidean
              [(0 # 2, 0 # 2); (1 # 2, 0 # 2); (0 # 2, 1 # 2); (1 # 2, 1 # 2)]%Q
              [(0, 0); (1, 1)]%Q in
  Z.of_nat (shape0 cm) = 2 * 2
  /\ shape1 cm = length [(0, 0); (1, 1)]%Q
  /\ (entry cm (Z.to_nat (1 * 2 + 1)) 1
      == sqeuclidean ((inject_Z 1 / inject_Z 2)%Q,
                      (inject_Z 1 / inject_Z 2)%Q) (1, 1)%Q)%Q.
Proof.
  apply (cost_matrix_entries 2 2
           [(0 # 2, 0 # 2); (1 # 2, 0 # 2); (0 # 2, 1 # 2); (1 # 2, 1 # 2)]%Q
           [(0, 0); (1, 1)]%Q 1 1 1 (1, 1)%Q).
  - vm_compute. reflexivity.
  - lia.
  - lia.
  - reflexivity.
Defined.

Lemma py_index_last {A} (l : list A) b :
  py_index l (-1) = ok b ->
  (1 <= length l)%nat /\ nth_error l (length l - 1) = Some b.
Proof.
  unfold py_index. cbn [Z.ltb Z.compare].
  destruct ((0 <=? -1 + Z.of_nat (length l))
            && (-1 + Z.of_nat (length l) <? Z.of_nat (length l))) eqn:E;
    [|discriminate].
  apply andb_true_iff in E. destruct E as [E _]. apply Z.leb_le in E.
  replace (Z.to_nat (-1 + Z.of_nat (length l))) with (length l - 1)%nat
    by lia.
  destruct (nth_error l (length l - 1)) as [a|]; [|discriminate].
  intros H. injection H as <-. split; [lia | reflexivity].
Qed.

Lemma py_index_in_range {A} (l : list A) v :
  (1 <= length l)%nat ->
  -1 <= v < Z.of_nat (length l) ->
  exists g, py_index l v = ok g.
Proof.
  intros Hlen Hv. unfold py_index.
  destruct (v <? 0) eqn:Eneg.
  - apply Z.ltb_lt in Eneg. assert (v = -1) by lia. subst v.
    replace ((0 <=? -1 + Z.of_nat (length l))
             && (-1 + Z.of_nat (length l) <? Z.of_nat (length l)))
      with true
      by (symmetry; apply andb_true_iff; split;
          [apply Z.leb_le | apply Z.ltb_lt]; lia).
    destruct (nth_error l (Z.to_nat (-1 + Z.of_nat (length l)))) as [g|] eqn:E;
      [exists g; reflexivity|].
    apply nth_error_None in E. lia.
  - apply Z.ltb_ge in Eneg.
    replace ((0 <=? v) && (v <? Z.of_nat (length l))) with true
      by (symmetry; apply andb_true_iff; split;
          [apply Z.leb_le | apply Z.ltb_lt]; lia).
    destruct (nth_error l (Z.to_nat v)) as [g|] eqn:E;
      [exists g; reflexivity|].
    apply nth_error_None in E. lia.
Qed.

Lemma mapM_all_ok {A B} (f : A -> result B) l :
  Forall (fun a => exists b, f a = ok b) l -> exists bs, mapM f l = ok bs.
Proof.
  induction 1 as [|a l [b Hb] _ [bs Hbs]]; [exists []; reflexivity|].
  exists (b :: bs). cbn [mapM]. rewrite Hb, Hbs. reflexivity.
Qed.

(** On a grid with at least one cell, when every entry of the solver's
    second index array is -1 or a cell index, [_get_assignments] returns -
    also when the solver has left a point unmatched (index -1, as it must
    when the grid has fewer cells than points): [grid[-1]] reports that
    point at the coordinate of the last cell of the lattice,
    [((size_x - 1) / size_x, (size_y - 1) / size_y)]. *)
Theorem unmatched_point_takes_last_cell {D}
        lapjv (self : ImageGrid D) pts grid c x y j :
  1 <= size_x self -> 1 <= size_y self ->
  make_grid (size_x self) (size_y self) = ok grid ->
  lapjv (cdist_sqeuclidean grid pts) = Some (c, x, y) ->
  Forall (fun v => -1 <= v < Z.of_nat (length grid)) y ->
  nth_error y j = Some (-1) ->
  exists a p,
    _get_assignments lapjv self pts = ok (c, x, a)
    /\ nth_error a j = Some p
    /\ (fst p * inject_Z (size_x self) == inject_Z (size_x self - 1))%Q
    /\ (snd p * inject_Z (size_y self) == inject_Z (size_y self - 1))%Q.
Proof.
  intros Hsx1 Hsy1 Eg El Hrange Hj.
  destruct (grid_cells Eg) as (_ & _ & Hcells).
  assert (Hlen : (1 <= length grid)%nat) by nia.
  destruct (mapM_all_ok (py_index grid) y) as [a Em].
  { apply Forall_forall. intros v Hv.
    rewrite Forall_forall in Hrange.
    apply py_index_in_range; [exact Hlen | apply Hrange; exact Hv]. }
  destruct (mapM_nth _ _ _ _ _ Em Hj) as (p & Hp & Hap).
  exists a, p.
  split.
  { unfold _get_assignments. rewrite Eg, rbind_ok, El.
    cbv beta iota. rewrite Em. reflexivity. }
  split; [exact Hap|].
  apply py_index_last in Hp. destruct Hp as [_ Hlast].
  destruct (make_grid_coordinates _ _ _ _ _ Eg Hlast)
    as (Hsx & Hsy & _ & _ & _ & Qx & Qy).
  set (sx := size_x self) in *. set (sy := size_y self) in *.
  assert (Hlin : Z.of_nat (length grid - 1) = (sy - 1) * sx + (sx - 1))
    by nia.
  assert (Hmod : Z.of_nat (length grid - 1) mod sx = sx - 1).
  { rewrite Hlin. symmetry.
    apply (Z.mod_unique _ _ (sy - 1)); [left; lia | ring]. }
  assert (Hdiv : Z.of_nat (length grid - 1) / sx = sy - 1).
  { rewrite Hlin. symmetry.
    apply (Z.div_unique _ _ _ (sx - 1)); [left; lia | ring]. }
  rewrite Hmod in Qx. rewrite Hdiv in Qy.
  split; assumption.
Qed.

Lemma unmatched_point_takes_last_cell_witness :
  exists a p,
    _get_assignments lapjv_one_row one_cell_two_points
                     (norm_data one_cell_two_points) = ok (0%Q, [0], a)
    /\ nth_error a 1 = Some p
    /\ (fst p * inject_Z (size_x one_cell_two_points)
        == inject_Z (size_x one_cell_two_points - 1))%Q
    /\ (snd p * inject_Z (size_y one_cell_two_points)
        == inject_Z (size_y one_cell_two_points - 1))%Q.
Proof.
  apply (unmatched_point_takes_last_cell
           lapjv_one_row one_cell_two_points
           (norm_data one_cell_two_points)
           [(0 # 1, 0 # 1)]%Q 0%Q [0] [0; -1] 1).
  - cbn. lia.
  - cbn. lia.
  - vm_compute. reflexivity.
  - reflexivity.
  - cbn. repeat constructor; lia.
  - reflexivity.
Defined.
